(** * Coverage cache and row-count estimator of csv-table (src/cache.ts)

    Shallow embedding of [RowsCache], [CSVRange], [CSVCache] and [Estimator].
    JS numbers used as byte offsets, byte counts and row indices are integers
    (every public entry point checks them with [checkNonNegativeInteger]), so
    they are modelled as [Z].  The average row byte count is a quotient and is
    modelled as an exact rational [Q]; [Math.round] is [floor (x + 1/2)].

    Methods that mutate an object are functions in a small state/error monad
    [SE S A := S -> result A * S]: a thrown exception keeps the state reached
    so far, as a JS exception keeps the mutations already done. *)

From Stdlib Require Import String ZArith QArith Qround Qabs List Bool Lia Permutation Sorted.
Import ListNotations.

Open Scope Z_scope.
Open Scope list_scope.

(** ** Exceptions and the state/error monad *)

Inductive error :=
| ENotNonNegativeInteger      (* checkNonNegativeInteger *)
| EAppendNotContiguous        (* CSVRange.append *)
| EPrependNotContiguous       (* CSVRange.prepend *)
| EMergeNotContiguous         (* CSVRange.merge *)
| ENoColumnNames              (* CSVCache constructor *)
| EHeaderExceedsLength        (* CSVCache constructor *)
| EOutOfBounds                (* store: byte range is out of bounds *)
| ERowBeforeLeft              (* store: row is before the left range *)
| EFirstBytesCached           (* store: first bytes cached, not the last ones *)
| ELastBytesCached            (* store: first bytes not cached, others are *)
| EFollowingNotFound          (* #merge: following range not found *)
| EUnreachable                (* "this point should not be reachable" *)
| ESerialExceedsLength        (* complete: serial range exceeds file length *)
| ECompleteWithRandom         (* complete: serial covers the file, random ranges left *)
| EColumnOutOfBounds          (* getCell *)
| EIncoherentComplete         (* Estimator: incoherent complete state *)
| EIncoherentRange            (* getStatus: range should contain a row *)
| ETypeError.                 (* access to a missing object *)

Inductive result (A : Type) : Type :=
| Ok (a : A)
| Throw (e : error).
Arguments Ok {A} a.
Arguments Throw {A} e.

Definition SE (S A : Type) : Type := S -> result A * S.

Definition ret {S A} (a : A) : SE S A := fun s => (Ok a, s).
Definition throw {S A} (e : error) : SE S A := fun s => (Throw e, s).
Definition bind {S A B} (m : SE S A) (k : A -> SE S B) : SE S B :=
  fun s => match m s with
           | (Ok a, s') => k a s'
           | (Throw e, s') => (Throw e, s')
           end.
Definition get_state {S} : SE S S := fun s => (Ok s, s).
Definition put_state {S} (s : S) : SE S unit := fun _ => (Ok tt, s).
Definition lift {S A} (r : result A) : SE S A := fun s => (r, s).

Notation "x <- c1 ;; c2" := (bind c1 (fun x => c2))
  (at level 61, c1 at next level, right associativity).
Notation "c1 ;; c2" := (bind c1 (fun _ => c2)) (at level 61, right associativity).

(** Run a method on a fresh object that is not yet reachable: if it throws,
    the object is dropped. *)
Definition run_fresh {S} (m : SE S unit) (s : S) : result S :=
  match m s with
  | (Ok _, s') => Ok s'
  | (Throw e, _) => Throw e
  end.

(** [helpers.ts]: [checkNonNegativeInteger] (integrality holds by typing). *)
Definition checkNonNegativeInteger (v : Z) : result Z :=
  if v <? 0 then Throw ENotNonNegativeInteger else Ok v.

(** JS array reads: [a[i]] is [undefined] for a negative or too large [i]. *)
Definition js_index {A} (l : list A) (i : Z) : option A :=
  if i <? 0 then None else nth_error l (Z.to_nat i).

(** [Array.prototype.splice(i, 0, x)] and [splice(i, 1)]. *)
Definition splice_insert {A} (l : list A) (i : nat) (x : A) : list A :=
  firstn i l ++ x :: skipn i l.
Definition splice_remove {A} (l : list A) (i : nat) : list A :=
  firstn i l ++ skipn (S i) l.

Fixpoint list_set {A} (l : list A) (i : nat) (x : A) : list A :=
  match l, i with
  | [], _ => []
  | _ :: t, O => x :: t
  | y :: t, S i' => y :: list_set t i' x
  end.

(** A stored row, as passed to [store]: [cells = None] is an ignored row. *)
Module Row.
Record t := mk { byteOffset : Z; byteCount : Z; cells : option (list string) }.
End Row.

(** ** [RowsCache] *)
Module RowsCache.
Record t := mk { rows : list (list string); byteCount : Z }.

Definition empty : t := mk [] 0.

Definition numRows (rc : t) : Z := Z.of_nat (length (rows rc)).

Definition append (bc : Z) (cells : list string) : SE t unit :=
  _ <- lift (checkNonNegativeInteger bc) ;;
  rc <- get_state ;;
  put_state (mk (rows rc ++ [cells]) (byteCount rc + bc)).

Definition prepend (bc : Z) (cells : list string) : SE t unit :=
  _ <- lift (checkNonNegativeInteger bc) ;;
  rc <- get_state ;;
  put_state (mk (cells :: rows rc) (byteCount rc + bc)).

Definition merge (other : t) : SE t unit :=
  rc <- get_state ;;
  put_state (mk (rows rc ++ rows other) (byteCount rc + byteCount other)).
End RowsCache.

(** ** [CSVRange] *)
Module CSVRange.
Record t := mk { firstByte : Z; byteCount : Z; rowsCache : RowsCache.t }.

Definition nextByte (r : t) : Z := firstByte r + byteCount r.

Definition new (firstByte : Z) : result t :=
  match checkNonNegativeInteger firstByte with
  | Ok fb => Ok (mk fb 0 RowsCache.empty)
  | Throw e => Throw e
  end.

(** Run a [RowsCache] method on the range's rows cache. *)
Definition on_rowsCache {A} (m : SE RowsCache.t A) : SE t A :=
  fun r => let (res, rc') := m (rowsCache r) in
           (res, mk (firstByte r) (byteCount r) rc').

Definition append (row : Row.t) : SE t unit :=
  _ <- lift (checkNonNegativeInteger (Row.byteOffset row)) ;;
  _ <- lift (checkNonNegativeInteger (Row.byteCount row)) ;;
  r <- get_state ;;
  if negb (Row.byteOffset row =? firstByte r + byteCount r)
  then throw EAppendNotContiguous
  else
    put_state (mk (firstByte r) (Row.byteOffset row + Row.byteCount row - firstByte r)
            (rowsCache r)) ;;
    match Row.cells row with
    | Some cells => on_rowsCache (RowsCache.append (Row.byteCount row) cells)
    | None => ret tt
    end.

Definition prepend (row : Row.t) : SE t unit :=
  _ <- lift (checkNonNegativeInteger (Row.byteOffset row)) ;;
  _ <- lift (checkNonNegativeInteger (Row.byteCount row)) ;;
  r <- get_state ;;
  if negb (Row.byteOffset row + Row.byteCount row =? firstByte r)
  then throw EPrependNotContiguous
  else
    put_state (mk (Row.byteOffset row) (byteCount r + Row.byteCount row) (rowsCache r)) ;;
    match Row.cells row with
    | Some cells => on_rowsCache (RowsCache.prepend (Row.byteCount row) cells)
    | None => ret tt
    end.

Definition merge (following : t) : SE t unit :=
  r <- get_state ;;
  if negb (nextByte r =? firstByte following)
  then throw EMergeNotContiguous
  else
    put_state (mk (firstByte r) (byteCount r + byteCount following) (rowsCache r)) ;;
    on_rowsCache (RowsCache.merge (rowsCache following)).

(** [getRow]: [checkInteger] holds by typing; out of bounds is [undefined]. *)
Definition getRow (r : t) (rowIndex : Z) : option (list string) :=
  js_index (RowsCache.rows (rowsCache r)) rowIndex.
End CSVRange.

(** ** [CSVCache] *)

(** [Newline] of the tokenizer (cosovo). *)
Inductive Newline := LF | CRLF | CR.

Module CSVCache.
Record t := mk {
  byteLength : Z;
  columnNames : list string;
  headerByteCount : Z;
  serial : CSVRange.t;
  random : list CSVRange.t;
  delimiter : string;
  newline : Newline
}.

Definition set_serial (c : t) (s : CSVRange.t) : t :=
  mk (byteLength c) (columnNames c) (headerByteCount c) s (random c)
     (delimiter c) (newline c).
Definition set_random (c : t) (l : list CSVRange.t) : t :=
  mk (byteLength c) (columnNames c) (headerByteCount c) (serial c) l
     (delimiter c) (newline c).

(** The ranges in scan order: the serial range, then the random ranges.
    A range object is designated by its position in this list: [0] is the
    serial range, [S i] is [random[i]]. *)
Definition ranges (c : t) : list CSVRange.t := serial c :: random c.

Definition with_ranges (c : t) (l : list CSVRange.t) : t :=
  match l with
  | s :: rs => set_random (set_serial c s) rs
  | [] => c
  end.

(** Run a [CSVRange] method on the range object at position [k]. *)
Definition on_range {A} (k : nat) (m : SE CSVRange.t A) : SE t A :=
  fun c => match nth_error (ranges c) k with
           | None => (Throw ETypeError, c)
           | Some r => let (res, r') := m r in
                       (res, with_ranges c (list_set (ranges c) k r'))
           end.

Definition read_range (k : nat) : SE t CSVRange.t :=
  fun c => match nth_error (ranges c) k with
           | None => (Throw ETypeError, c)
           | Some r => (Ok r, c)
           end.

Definition new (columnNames : list string) (headerByteCount : option Z)
    (byteLength : Z) (delimiter : string) (newline : Newline) : result t :=
  let h := match headerByteCount with Some h => h | None => 0 end in
  match checkNonNegativeInteger h, checkNonNegativeInteger byteLength with
  | Throw e, _ | _, Throw e => Throw e
  | Ok _, Ok _ =>
    match columnNames with
    | [] => Throw ENoColumnNames
    | _ =>
      if byteLength <? h then Throw EHeaderExceedsLength
      else
        match CSVRange.new 0 with
        | Throw e => Throw e
        | Ok serial0 =>
          match run_fresh (CSVRange.append (Row.mk 0 h None)) serial0 with
          | Throw e => Throw e
          | Ok serial => Ok (mk byteLength columnNames h serial [] delimiter newline)
          end
        end
    end
  end.

(** The [complete] getter, with its two consistency checks. *)
Definition complete (c : t) : result bool :=
  if byteLength c <? CSVRange.nextByte (serial c) then Throw ESerialExceedsLength
  else
    let complete := CSVRange.nextByte (serial c) =? byteLength c in
    if complete && negb (match random c with [] => true | _ => false end)
    then Throw ECompleteWithRandom
    else Ok complete.

(** [#merge(range, followingRange)]: [followingRange] is the right range of
    loop iteration [i], i.e. [random[i]], so [indexOf] returns [i]. *)
Definition merge_ranges (rangeRef : nat) (index : nat) : SE t unit :=
  c <- get_state ;;
  match nth_error (random c) index with
  | None => throw EFollowingNotFound
  | Some followingRange =>
    on_range rangeRef (CSVRange.merge followingRange) ;;
    c' <- get_state ;;
    put_state (set_random c' (splice_remove (random c') index))
  end.

Definition starts_at_or_after (off : Z) (right : option CSVRange.t) : bool :=
  match right with Some r => CSVRange.firstByte r <=? off | None => false end.
Definition ends_after_start (e : Z) (right : option CSVRange.t) : bool :=
  match right with Some r => CSVRange.firstByte r <? e | None => false end.
Definition ends_at_start (e : Z) (right : option CSVRange.t) : bool :=
  match right with Some r => e =? CSVRange.firstByte r | None => false end.

(** One iteration of the loop of [store], with [leftRange] the object at
    position [leftRef] and [rightRange] the [i]-th entry of
    [[...random, undefined]].  [None]: [continue]; [Some b]: [return b]. *)
Definition store_iter (row : Row.t) (i : nat) (leftRef : nat)
    (rightRange : option CSVRange.t) : SE t (option bool) :=
  let off := Row.byteOffset row in
  let e := Row.byteOffset row + Row.byteCount row in
  leftRange <- read_range leftRef ;;
  if off <? CSVRange.firstByte leftRange then throw ERowBeforeLeft
  else if off <? CSVRange.nextByte leftRange then
    (if CSVRange.nextByte leftRange <? e then throw EFirstBytesCached
     else ret (Some false))
  else if starts_at_or_after off rightRange then ret None
  else if ends_after_start e rightRange then throw ELastBytesCached
  else if off =? CSVRange.nextByte leftRange then
    on_range leftRef (CSVRange.append row) ;;
    leftRange' <- read_range leftRef ;;
    (if ends_at_start (CSVRange.nextByte leftRange') rightRange
     then merge_ranges leftRef i ;; ret (Some true)
     else ret (Some true))
  else if ends_at_start e rightRange then
    on_range (S i) (CSVRange.prepend row) ;; ret (Some true)
  else
    newRange <- lift (CSVRange.new off) ;;
    newRange' <- lift (run_fresh (CSVRange.append row) newRange) ;;
    c <- get_state ;;
    put_state (set_random c (splice_insert (random c) i newRange')) ;;
    ret (Some true).

Fixpoint store_loop (row : Row.t) (snapshot : list (option CSVRange.t))
    (i : nat) (leftRef : nat) : SE t bool :=
  match snapshot with
  | [] => throw EUnreachable
  | rightRange :: rest =>
    o <- store_iter row i leftRef rightRange ;;
    match o with
    | Some b => ret b
    | None => store_loop row rest (S i) (S i)
    end
  end.

Definition store (row : Row.t) : SE t bool :=
  _ <- lift (checkNonNegativeInteger (Row.byteOffset row)) ;;
  _ <- lift (checkNonNegativeInteger (Row.byteCount row)) ;;
  c <- get_state ;;
  if byteLength c <? Row.byteOffset row + Row.byteCount row
  then throw EOutOfBounds
  else store_loop row (map Some (random c) ++ [None]) 0 0.
End CSVCache.

(** ** List view of the [store] loop

    The same scan as [CSVCache.store_loop], on the list [serial :: random]
    with each mutation applied to a copy of the range: the loop over
    [(left, right)] pairs is a recursion on the list.  Lemma
    [store_loop_walk] below proves the two agree. *)
Module Walk.
Import CSVCache.

Definition pure_append (row : Row.t) (r : CSVRange.t) : result CSVRange.t :=
  run_fresh (CSVRange.append row) r.
Definition pure_prepend (row : Row.t) (r : CSVRange.t) : result CSVRange.t :=
  run_fresh (CSVRange.prepend row) r.
Definition pure_merge (following : CSVRange.t) (r : CSVRange.t) : result CSVRange.t :=
  run_fresh (CSVRange.merge following) r.

Definition opt_list (o : option CSVRange.t) : list CSVRange.t :=
  match o with Some r => [r] | None => [] end.

(** The part of an iteration after the [continue] test: the row is stored
    between [left] and [right]; [rest] follows [right]. *)
Definition place (row : Row.t) (left : CSVRange.t) (right : option CSVRange.t)
    (rest : list CSVRange.t) : result (bool * list CSVRange.t) :=
  let off := Row.byteOffset row in
  let e := Row.byteOffset row + Row.byteCount row in
  if ends_after_start e right then Throw ELastBytesCached
  else if off =? CSVRange.nextByte left then
    match pure_append row left with
    | Throw err => Throw err
    | Ok left' =>
      match right with
      | Some r =>
        if CSVRange.nextByte left' =? CSVRange.firstByte r then
          match pure_merge r left' with
          | Ok m => Ok (true, m :: rest)
          | Throw err => Throw err
          end
        else Ok (true, left' :: r :: rest)
      | None => Ok (true, left' :: rest)
      end
    end
  else
    match right with
    | Some r =>
      if e =? CSVRange.firstByte r then
        match pure_prepend row r with
        | Ok r' => Ok (true, left :: r' :: rest)
        | Throw err => Throw err
        end
      else
        match CSVRange.new off with
        | Throw err => Throw err
        | Ok nr => match pure_append row nr with
                   | Ok nr' => Ok (true, left :: nr' :: r :: rest)
                   | Throw err => Throw err
                   end
        end
    | None =>
      match CSVRange.new off with
      | Throw err => Throw err
      | Ok nr => match pure_append row nr with
                 | Ok nr' => Ok (true, left :: nr' :: rest)
                 | Throw err => Throw err
                 end
      end
    end.

Fixpoint walk (row : Row.t) (left : CSVRange.t) (rest : list CSVRange.t)
    : result (bool * list CSVRange.t) :=
  let off := Row.byteOffset row in
  let e := Row.byteOffset row + Row.byteCount row in
  if off <? CSVRange.firstByte left then Throw ERowBeforeLeft
  else if off <? CSVRange.nextByte left then
    (if CSVRange.nextByte left <? e then Throw EFirstBytesCached
     else Ok (false, left :: rest))
  else
    match rest with
    | r :: rest' =>
      if CSVRange.firstByte r <=? off then
        match walk row r rest' with
        | Ok (b, l) => Ok (b, left :: l)
        | Throw err => Throw err
        end
      else place row left (Some r) rest'
    | [] => place row left None []
    end.

(** [store] on the list view: the argument checks, then the scan. *)
Definition store_pure (row : Row.t) (c : CSVCache.t)
    : result (bool * list CSVRange.t) :=
  match checkNonNegativeInteger (Row.byteOffset row),
        checkNonNegativeInteger (Row.byteCount row) with
  | Throw e, _ | _, Throw e => Throw e
  | Ok _, Ok _ =>
    if byteLength c <? Row.byteOffset row + Row.byteCount row
    then Throw EOutOfBounds
    else walk row (serial c) (random c)
  end.

(** The outcome of one iteration of the [store] loop that does not
    [continue], as a state change of the cache: [pre] are the ranges before
    the left range. *)
Definition lift_place (c : CSVCache.t) (pre : list CSVRange.t)
    (r : result (bool * list CSVRange.t)) : result (option bool) * CSVCache.t :=
  match r with
  | Ok (b, l) => (Ok (Some b), with_ranges c (pre ++ l))
  | Throw e => (Throw e, c)
  end.
End Walk.

(** ** [Estimator]

    The estimator holds a reference to a [CSVCache] that the caller keeps
    mutating with [store]; every method reads the current state of that cache,
    which is passed as an argument.  The estimator's own state is
    [#averageRowByteCount : number | undefined], i.e. [option Q] with [None]
    for [undefined] (the exact, complete state). *)

(** [Math.round]: round half up. *)
Definition Math_round (x : Q) : Z := Qfloor (x + (1 # 2))%Q.

(** Rows with their cells, as stored in a [RowsCache]. *)
Definition cells_list (o : option (list string)) : list (list string) :=
  match o with Some cs => [cs] | None => [] end.

Module Estimator.
Import CSVCache.

Definition t := option Q.

(** [#averageRowByteCount: number | undefined = 0] *)
Definition init : t := Some 0%Q.

Definition rangeNumRows (r : CSVRange.t) : Z := RowsCache.numRows (CSVRange.rowsCache r).

Definition computeNumCachedRows (c : CSVCache.t) : Z :=
  rangeNumRows (serial c) +
  fold_left (fun sum range => sum + rangeNumRows range) (random c) 0.

Definition computeNumCachedBytes (c : CSVCache.t) : Z :=
  RowsCache.byteCount (CSVRange.rowsCache (serial c)) +
  fold_left (fun sum range => sum + RowsCache.byteCount (CSVRange.rowsCache range))
    (random c) 0.

Definition numRows (avg : t) (c : CSVCache.t) : Z :=
  match avg with
  | Some a =>
    if Qeq_bool a 0 then 0
    else Math_round (inject_Z (byteLength c - headerByteCount c) / a)
  | None => computeNumCachedRows c
  end.

Definition isNumRowsEstimated (avg : t) : bool :=
  match avg with Some _ => true | None => false end.

Definition refresh (c : CSVCache.t) : SE t bool :=
  let numCachedBytes := computeNumCachedBytes c in
  let numCachedRows := computeNumCachedRows c in
  complete <- lift (CSVCache.complete c) ;;
  avg <- @get_state t ;;
  if complete then
    match avg with
    | None => ret false
    | Some _ => put_state None ;; ret true
    end
  else
    match avg with
    | None => throw EIncoherentComplete
    | Some old =>
      if numCachedRows =? 0 then ret false
      else
        let averageRowByteCount := (inject_Z numCachedBytes / inject_Z numCachedRows)%Q in
        if Qeq_bool old 0
           || negb (Qle_bool (Qabs (averageRowByteCount - old) / old)%Q (1 # 100))
        then put_state (Some averageRowByteCount) ;; ret true
        else ret false
    end.

(** [#guessRowNumberInRandomRange] *)
Definition guessRowNumberInRandomRange (avg : t) (c : CSVCache.t) (byteOffset : Z)
    : result (option Z) :=
  match avg with
  | None => Throw EIncoherentComplete
  | Some a =>
    if Qeq_bool a 0 then Ok None
    else Ok (Some (Z.max (Math_round (inject_Z (byteOffset - headerByteCount c) / a)) 0))
  end.

(** The loop of [#getCells] over [randomRanges.reverse().entries()]. *)
Fixpoint getCells_loop (avg : t) (c : CSVCache.t) (row : Z) (l : list CSVRange.t)
    (i : nat) : result (option (list string)) :=
  match l with
  | [] => Ok None
  | range :: rest =>
    let hotfixBuffer := 1 in
    let estimatedFirstRow :=
      if (Nat.eqb i 0) && (byteLength c - hotfixBuffer <=? CSVRange.nextByte range)
         && (0 <? rangeNumRows range)
      then Ok (Some (numRows avg c - rangeNumRows range))
      else guessRowNumberInRandomRange avg c (CSVRange.firstByte range) in
    match estimatedFirstRow with
    | Throw e => Throw e
    | Ok None => Ok None
    | Ok (Some efr) =>
      match CSVRange.getRow range (row - efr) with
      | Some cells => Ok (Some cells)
      | None => getCells_loop avg c row rest (S i)
      end
    end
  end.

Definition getCells (avg : t) (c : CSVCache.t) (row : Z) : result (option (list string)) :=
  match CSVRange.getRow (serial c) row with
  | Some cells => Ok (Some cells)
  | None => getCells_loop avg c row (rev (random c)) 0
  end.

(** [cells[column] ?? ''] *)
Definition cell_or_empty (cells : list string) (column : Z) : string :=
  match js_index cells column with Some v => v | None => EmptyString end.

Definition getCell (avg : t) (c : CSVCache.t) (row column : Z) : result (option string) :=
  match checkNonNegativeInteger column with
  | Throw e => Throw e
  | Ok _ =>
    if Z.of_nat (length (columnNames c)) <=? column then Throw EColumnOutOfBounds
    else
      match getCells avg c row with
      | Throw e => Throw e
      | Ok None => Ok None
      | Ok (Some cells) => Ok (Some (cell_or_empty cells column))
      end
  end.

Definition getRowNumber (avg : t) (c : CSVCache.t) (row : Z) : option Z :=
  if (0 <=? row) && (row <? numRows avg c) then Some row else None.

(** [RowStatus] of [getStatus] (src/unnamed/part_002). *)
Inductive RowStatus :=
| Stored (range : CSVRange.t) (cells : list string) (firstRangeRow : Z) (isEstimate : bool)
| Missing (leftRange : CSVRange.t) (rightRange : option CSVRange.t)
          (byteOffset : Z) (isEstimate : bool)
| BeyondEOF (isEstimate : bool)
| Unknown.

(** The [left] object of the loop: [{range, firstRow, isEstimate}]. *)
Record Left := mkLeft { leftRange : CSVRange.t; firstRow : Z; leftIsEstimate : bool }.

(** [rightFirstRow], with [a] the (non-zero) average row byte count. *)
Definition rightFirstRow (avg : t) (a : Q) (c : CSVCache.t) (snapEOFToNumRows : bool)
    (left : Left) (leftNextRow : Z) (rightRange : option CSVRange.t) : Z :=
  match rightRange with
  | None => numRows avg c
  | Some r =>
    if snapEOFToNumRows && (byteLength c - 1 <=? CSVRange.nextByte r)
       && (0 <? rangeNumRows r)
    then numRows avg c - rangeNumRows r
    else leftNextRow + Math_round (inject_Z (CSVRange.firstByte r
                                             - CSVRange.nextByte (leftRange left)) / a)
  end.

(** The loop of [getStatus] over [[...randomRanges, undefined]]. *)
Fixpoint getStatus_loop (avg : t) (c : CSVCache.t) (row : Z) (snapEOFToNumRows : bool)
    (left : Left) (rights : list (option CSVRange.t)) : result RowStatus :=
  match rights with
  | [] => Throw EUnreachable
  | rightRange :: rest =>
    let leftNextRow := firstRow left + rangeNumRows (leftRange left) in
    if row <? leftNextRow then
      match CSVRange.getRow (leftRange left) (row - firstRow left) with
      | None => Throw EIncoherentRange
      | Some cells => Ok (Stored (leftRange left) cells (firstRow left) (leftIsEstimate left))
      end
    else if row =? leftNextRow then
      Ok (Missing (leftRange left) rightRange (CSVRange.nextByte (leftRange left)) false)
    else
      match avg with
      | None => Throw EIncoherentComplete
      | Some a =>
        if Qeq_bool a 0 then Ok Unknown
        else
          let rfr := rightFirstRow avg a c snapEOFToNumRows left leftNextRow rightRange in
          if row <? rfr then
            Ok (Missing (leftRange left) rightRange
                  (CSVRange.nextByte (leftRange left)
                   + Math_round (inject_Z (row - leftNextRow) * a)) true)
          else
            let left' := match rightRange with
                         | Some r => mkLeft r rfr true
                         | None => left
                         end in
            getStatus_loop avg c row snapEOFToNumRows left' rest
      end
  end.

Definition getStatus (avg : t) (c : CSVCache.t) (row : Z) (snapEOFToNumRows : bool)
    : result RowStatus :=
  match checkNonNegativeInteger row with
  | Throw e => Throw e
  | Ok _ =>
    if (0 <? numRows avg c) && (numRows avg c <=? row)
    then Ok (BeyondEOF (isNumRowsEstimated avg))
    else getStatus_loop avg c row snapEOFToNumRows (mkLeft (serial c) 0 false)
           (map Some (random c) ++ [None])
  end.

(** [guessByteOffset] (src/cache.ts): the byte offset of row 0 is known
    exactly; other rows need a non-zero average. *)
Definition guessByteOffset (avg : t) (c : CSVCache.t) (row : Z) : option Z :=
  if row =? 0 then Some (headerByteCount c)
  else
    match avg with
    | None => None
    | Some a =>
      if Qeq_bool a 0 then None
      else Some (Z.max 0 (Z.min (byteLength c - 1)
                           (headerByteCount c + Math_round (inject_Z row * a))))
    end.

(** [isStored] (src/cache.ts): [#getCells(row) !== undefined]. *)
Definition isStored (avg : t) (c : CSVCache.t) (row : Z) : result bool :=
  match getCells avg c row with
  | Throw e => Throw e
  | Ok cells => Ok (match cells with Some _ => true | None => false end)
  end.
End Estimator.

(** ** The [Estimator] methods of src/unnamed/part_002 built on [getStatus]

    In that version of the file, [getCell] reads the row through
    [getStatus({row, snapEOFToNumRows: true})], and two more methods locate the
    missing rows around a given row with [getStatus({row})] (the flag is
    [undefined], i.e. [false]). *)
Module StatusEstimator.
Import CSVCache Estimator.

Definition getCell (avg : Estimator.t) (c : CSVCache.t) (row column : Z)
    : result (option string) :=
  match checkNonNegativeInteger column with
  | Throw e => Throw e
  | Ok _ =>
    if Z.of_nat (length (columnNames c)) <=? column then Throw EColumnOutOfBounds
    else
      match getStatus avg c row true with
      | Throw e => Throw e
      | Ok (Stored _ cells _ _) => Ok (Some (cell_or_empty cells column))
      | Ok _ => Ok None
      end
  end.

(** The result [{row, byteOffset: {value, isEstimate}}] of [getFirstMissingRow]. *)
Record MissingRow := mkMissingRow {
  missingRow : Z; missingByteOffset : Z; missingIsEstimate : bool }.

Definition getFirstMissingRow (avg : Estimator.t) (c : CSVCache.t) (minRow : Z)
    : result (option MissingRow) :=
  match getStatus avg c minRow false with
  | Throw e => Throw e
  | Ok (Missing _ _ off isEstimate) => Ok (Some (mkMissingRow minRow off isEstimate))
  | Ok (Stored range _ firstRangeRow _) =>
    let nextRow := firstRangeRow + rangeNumRows range in
    if byteLength c <=? CSVRange.nextByte range then Ok None
    else Ok (Some (mkMissingRow nextRow (CSVRange.nextByte range) false))
  | Ok _ => Ok None
  end.

Definition getLastMissingRowNumber (avg : Estimator.t) (c : CSVCache.t) (maxRow : Z)
    : result (option Z) :=
  match getStatus avg c maxRow false with
  | Throw e => Throw e
  | Ok (Missing _ _ _ _) => Ok (Some maxRow)
  | Ok (Stored _ _ firstRangeRow _) =>
    if firstRangeRow =? 0 then Ok None else Ok (Some (firstRangeRow - 1))
  | Ok _ => Ok None
  end.
End StatusEstimator.

(** ** Reachable caches and the coverage invariant *)

(** States reachable from the constructor by successful [store] calls. *)
Inductive reachable : CSVCache.t -> Prop :=
| reachable_new cols h bl delim nl c :
    CSVCache.new cols h bl delim nl = Ok c -> reachable c
| reachable_store c row b c' :
    reachable c -> CSVCache.store row c = (Ok b, c') -> reachable c'.

(** [a] ends strictly before [b] starts: ordered, disjoint, not contiguous. *)
Definition before (a b : CSVRange.t) : Prop :=
  CSVRange.nextByte a < CSVRange.firstByte b.

Definition range_wf (byteLength : Z) (r : CSVRange.t) : Prop :=
  0 <= CSVRange.firstByte r /\ 0 <= CSVRange.byteCount r /\
  CSVRange.nextByte r <= byteLength.

Definition cache_inv (c : CSVCache.t) : Prop :=
  CSVRange.firstByte (CSVCache.serial c) = 0 /\
  Forall (range_wf (CSVCache.byteLength c)) (CSVCache.ranges c) /\
  Sorted before (CSVCache.ranges c).

(** Rows stored by a successful [store] that returned [true], with their
    byte offset: only a row with cells adds a row to a rows cache. *)
Definition stored_rows (row : Row.t) : list (Z * list string) :=
  match Row.cells row with
  | Some cs => [(Row.byteOffset row, cs)]
  | None => []
  end.

(** Reachable caches, with the trace of the rows newly stored so far. *)
Inductive reachable_with : CSVCache.t -> list (Z * list string) -> Prop :=
| reachable_with_new cols h bl delim nl c :
    CSVCache.new cols h bl delim nl = Ok c -> reachable_with c []
| reachable_with_store c W row b c' :
    reachable_with c W -> CSVCache.store row c = (Ok b, c') ->
    reachable_with c' (if b then W ++ stored_rows row else W).

(** The rows of a range, with their byte offsets and counts: [chain lo hi es]
    says the rows follow each other without overlap inside [[lo, hi)]. *)
Fixpoint chain (lo hi : Z) (es : list (Z * Z * list string)) : Prop :=
  match es with
  | [] => lo <= hi
  | (o, n, _) :: es' => lo <= o /\ 0 <= n /\ chain (o + n) hi es'
  end.

Definition range_entries (r : CSVRange.t) (es : list (Z * Z * list string)) : Prop :=
  RowsCache.rows (CSVRange.rowsCache r) = map snd es /\
  chain (CSVRange.firstByte r) (CSVRange.nextByte r) es.

Definition drop_count (e : Z * Z * list string) : Z * list string :=
  let '(o, _, cs) := e in (o, cs).

(** [store] covers the byte span of the row with the range [x]. *)
Definition contains (row : Row.t) (x : CSVRange.t) : Prop :=
  CSVRange.firstByte x <= Row.byteOffset row /\
  Row.byteOffset row + Row.byteCount row <= CSVRange.nextByte x.

(** Pairs of an estimator state and the state of the cache it reads,
    reachable from a new cache and a new estimator by [store] calls on the
    cache and [refresh] calls on the estimator. *)
Inductive est_reachable : Estimator.t -> CSVCache.t -> Prop :=
| est_reachable_new cols h bl delim nl c :
    CSVCache.new cols h bl delim nl = Ok c -> est_reachable Estimator.init c
| est_reachable_store avg c row b c' :
    est_reachable avg c -> CSVCache.store row c = (Ok b, c') -> est_reachable avg c'
| est_reachable_refresh avg c b avg' :
    est_reachable avg c -> Estimator.refresh c avg = (Ok b, avg') -> est_reachable avg' c.

(** A quantity summed over a list of ranges. *)
Definition sum_over (f : CSVRange.t -> Z) (l : list CSVRange.t) : Z :=
  fold_right (fun r s => f r + s) 0 l.

(** The bytes a stored row adds to the byte count of a rows cache. *)
Definition stored_bytes (row : Row.t) : Z :=
  match Row.cells row with Some _ => Row.byteCount row | None => 0 end.

(** The row partially overlaps the range [x]: they share a byte, but [x] does
    not contain the whole row. *)
Definition partial_overlap (row : Row.t) (x : CSVRange.t) : Prop :=
  CSVRange.firstByte x < Row.byteOffset row + Row.byteCount row /\
  Row.byteOffset row < CSVRange.nextByte x /\ ~ contains row x.

(** Bytes of a range that hold no stored cells: the header in the serial
    range, and rows stored without cells. *)
Definition unstored_measure (r : CSVRange.t) : Z :=
  CSVRange.byteCount r - RowsCache.byteCount (CSVRange.rowsCache r).

(** ** Statements of the specification, where they differ from the code *)
Module SpecSide.
Import CSVCache Estimator.

(** "[numRows] = exact stored count when complete, else
    [round((byteLength - headerByteCount) / average)]".  A JS division by an
    average of [0] is not a finite number ([Infinity] or [NaN]): [None]. *)
Definition claimed_numRows (avg : Estimator.t) (c : CSVCache.t) : option Z :=
  match avg with
  | None => Some (computeNumCachedRows c)
  | Some a =>
    if Qeq_bool a 0 then None
    else Some (Math_round (inject_Z (byteLength c - headerByteCount c) / a))
  end.

(** The walk of [getStatus] as the specification describes it: over the
    (left, right) pairs, a row strictly inside left is stored, the row that
    follows left is missing at the exact offset [left.nextByte], a row before
    right's estimated first row is missing at an estimated offset, otherwise
    the walk moves on; [Unknown] when the average is [0]. *)
Fixpoint classify (avg : Estimator.t) (a : Q) (c : CSVCache.t) (row : Z)
    (snapEOFToNumRows : bool) (left : Left) (rights : list (option CSVRange.t))
    : result RowStatus :=
  match rights with
  | [] => Throw EUnreachable
  | rightRange :: rest =>
    let lr := leftRange left in
    let nextRow := firstRow left + rangeNumRows lr in
    if (firstRow left <=? row) && (row <? nextRow) then
      Ok (Stored lr (nth (Z.to_nat (row - firstRow left))
                         (RowsCache.rows (CSVRange.rowsCache lr)) [])
                 (firstRow left) (leftIsEstimate left))
    else if row =? nextRow then
      Ok (Missing lr rightRange (CSVRange.nextByte lr) false)
    else if Qeq_bool a 0 then Ok Unknown
    else
      let estimatedFirstRow := rightFirstRow avg a c snapEOFToNumRows left nextRow rightRange in
      if row <? estimatedFirstRow then
        Ok (Missing lr rightRange
              (CSVRange.nextByte lr + Math_round (inject_Z (row - nextRow) * a)) true)
      else
        match rightRange with
        | Some r => classify avg a c row snapEOFToNumRows (mkLeft r estimatedFirstRow true) rest
        | None => classify avg a c row snapEOFToNumRows left rest
        end
  end.

Definition classify_status (avg : Estimator.t) (a : Q) (c : CSVCache.t) (row : Z)
    (snapEOFToNumRows : bool) : result RowStatus :=
  classify avg a c row snapEOFToNumRows (mkLeft (serial c) 0 false)
    (map Some (random c) ++ [None]).
End SpecSide.

(** The rows a newly stored row adds to a range, with its byte offset and count. *)
Definition new_entries (row : Row.t) : list (Z * Z * list string) :=
  match Row.cells row with
  | Some cs => [(Row.byteOffset row, Row.byteCount row, cs)]
  | None => []
  end.

(** * Proofs *)

(** ** [store] on the list view, and the coverage invariant *)
Module StoreProofs.
Import CSVCache Walk.

Lemma list_set_app {A} (l1 l2 : list A) k x :
  list_set (l1 ++ l2) (length l1 + k) x = l1 ++ list_set l2 k x.
Proof. induction l1 as [|y l1 IH]; simpl; [reflexivity|now rewrite IH]. Qed.

Lemma splice_insert_app {A} (l1 l2 : list A) k x :
  splice_insert (l1 ++ l2) (length l1 + k) x = l1 ++ splice_insert l2 k x.
Proof. induction l1 as [|y l1 IH]; [reflexivity|]. unfold splice_insert in *. simpl. f_equal. exact IH. Qed.

Lemma splice_remove_app {A} (l1 l2 : list A) k :
  splice_remove (l1 ++ l2) (length l1 + k) = l1 ++ splice_remove l2 k.
Proof. induction l1 as [|y l1 IH]; [reflexivity|]. unfold splice_remove in *. simpl. f_equal. exact IH. Qed.

Lemma ranges_with_ranges c l : l <> [] -> ranges (with_ranges c l) = l.
Proof. destruct l; [congruence|reflexivity]. Qed.

Lemma with_ranges_ranges c : with_ranges c (ranges c) = c.
Proof. destruct c; reflexivity. Qed.

Lemma with_ranges_twice c l1 l2 : l2 <> [] -> with_ranges (with_ranges c l1) l2 = with_ranges c l2.
Proof. destruct l1, l2; try congruence; reflexivity. Qed.

Lemma append_ok row r :
  0 <= Row.byteOffset row -> 0 <= Row.byteCount row -> Row.byteOffset row = CSVRange.nextByte r ->
  exists r', CSVRange.append row r = (Ok tt, r').
Proof.
  intros H1 H2 H3. unfold CSVRange.append, CSVRange.nextByte in *.
  unfold bind, lift, get_state, put_state, checkNonNegativeInteger, ret.
  destruct (Row.byteOffset row <? 0) eqn:E1; [lia|].
  destruct (Row.byteCount row <? 0) eqn:E2; [lia|].
  rewrite H3, Z.eqb_refl. simpl.
  destruct (Row.cells row); [|eauto].
  unfold CSVRange.on_rowsCache, RowsCache.append, bind, lift, get_state, put_state, checkNonNegativeInteger. rewrite E2. eauto.
Qed.

Lemma prepend_ok row r :
  0 <= Row.byteOffset row -> 0 <= Row.byteCount row -> Row.byteOffset row + Row.byteCount row = CSVRange.firstByte r ->
  exists r', CSVRange.prepend row r = (Ok tt, r').
Proof.
  intros H1 H2 H3. unfold CSVRange.prepend.
  unfold bind, lift, get_state, put_state, checkNonNegativeInteger, ret.
  destruct (Row.byteOffset row <? 0) eqn:E1; [lia|].
  destruct (Row.byteCount row <? 0) eqn:E2; [lia|].
  rewrite H3, Z.eqb_refl. simpl.
  destruct (Row.cells row); [|eauto].
  unfold CSVRange.on_rowsCache, RowsCache.prepend, bind, lift, get_state, put_state, checkNonNegativeInteger. rewrite E2. eauto.
Qed.

Lemma merge_ok f r :
  CSVRange.nextByte r = CSVRange.firstByte f ->
  exists r', CSVRange.merge f r = (Ok tt, r').
Proof.
  intros H. unfold CSVRange.merge, bind, get_state, put_state. rewrite H, Z.eqb_refl. simpl.
  unfold CSVRange.on_rowsCache, RowsCache.merge, bind, get_state, put_state. eauto.
Qed.

Lemma bind_ok {S A B} (m : SE S A) (k : A -> SE S B) s a s' :
  m s = (Ok a, s') -> bind m k s = k a s'.
Proof. intros H. unfold bind. now rewrite H. Qed.

Lemma set_random_with_ranges c l : set_random c l = with_ranges c (serial c :: l).
Proof. destruct c; reflexivity. Qed.

Lemma app_cons_neq_nil {A} (l1 l2 : list A) x : l1 ++ x :: l2 <> [].
Proof. destruct l1; discriminate. Qed.

Lemma list_set_pre {A} (pre rest : list A) x y :
  list_set (pre ++ x :: rest) (length pre) y = pre ++ y :: rest.
Proof. rewrite <- (Nat.add_0_r (length pre)), list_set_app. reflexivity. Qed.

Lemma list_set_pre1 {A} (pre rest : list A) x y z :
  list_set (pre ++ x :: y :: rest) (S (length pre)) z = pre ++ x :: z :: rest.
Proof. rewrite <- Nat.add_1_r, list_set_app. reflexivity. Qed.

Lemma nth_pre {A} (pre rest : list A) x : nth_error (pre ++ x :: rest) (length pre) = Some x.
Proof. rewrite nth_error_app2, Nat.sub_diag by lia. reflexivity. Qed.

Lemma nth_pre1 {A} (pre rest : list A) x y : nth_error (pre ++ x :: y :: rest) (S (length pre)) = Some y.
Proof. rewrite nth_error_app2 by lia. replace (S (length pre) - length pre)%nat with 1%nat by lia. reflexivity. Qed.

Lemma on_range_ok {A} c k r (m : SE CSVRange.t A) a r' :
  nth_error (ranges c) k = Some r -> m r = (Ok a, r') ->
  on_range k m c = (Ok a, with_ranges c (list_set (ranges c) k r')).
Proof. intros H1 H2. unfold on_range. rewrite H1, H2. reflexivity. Qed.

Lemma new_ok off : 0 <= off -> CSVRange.new off = Ok (CSVRange.mk off 0 RowsCache.empty).
Proof. intros H. unfold CSVRange.new, checkNonNegativeInteger. destruct (off <? 0) eqn:E; [lia|reflexivity]. Qed.

Lemma store_iter_spec row c pre left right rest :
  0 <= Row.byteOffset row -> 0 <= Row.byteCount row ->
  ranges c = pre ++ left :: opt_list right ++ rest ->
  store_iter row (length pre) (length pre) right c =
  if Row.byteOffset row <? CSVRange.firstByte left then (Throw ERowBeforeLeft, c)
  else if Row.byteOffset row <? CSVRange.nextByte left then
    (if CSVRange.nextByte left <? Row.byteOffset row + Row.byteCount row
     then (Throw EFirstBytesCached, c) else (Ok (Some false), c))
  else if starts_at_or_after (Row.byteOffset row) right then (Ok None, c)
  else lift_place c pre (place row left right rest).
Proof.
  intros H0 H1 Hc. unfold store_iter.
  rewrite (bind_ok _ _ c left c) by (unfold read_range; rewrite Hc, nth_pre; reflexivity).
  destruct (Row.byteOffset row <? CSVRange.firstByte left) eqn:E1; [reflexivity|].
  destruct (Row.byteOffset row <? CSVRange.nextByte left) eqn:E2.
  { destruct (CSVRange.nextByte left <? _); reflexivity. }
  destruct (starts_at_or_after (Row.byteOffset row) right) eqn:E3; [reflexivity|].
  unfold place.
  destruct (ends_after_start _ right) eqn:E4; [reflexivity|].
  destruct (Row.byteOffset row =? CSVRange.nextByte left) eqn:E5.
  - apply Z.eqb_eq in E5.
    destruct (append_ok row left H0 H1 E5) as [left' Happ].
    assert (Hp : pure_append row left = Ok left') by (unfold pure_append, run_fresh; now rewrite Happ).
    rewrite Hp.
    set (c1 := with_ranges c (list_set (ranges c) (length pre) left')).
    assert (Hc1 : ranges c1 = pre ++ left' :: opt_list right ++ rest).
    { unfold c1. rewrite Hc, list_set_pre, ranges_with_ranges by apply app_cons_neq_nil. reflexivity. }
    rewrite (bind_ok _ _ c tt c1) by (apply (on_range_ok c _ left); [rewrite Hc; apply nth_pre | exact Happ]).
    rewrite (bind_ok _ _ c1 left' c1) by (unfold read_range; rewrite Hc1, nth_pre; reflexivity).
    destruct right as [r|]; simpl.
    + destruct (CSVRange.nextByte left' =? CSVRange.firstByte r) eqn:E6.
      * apply Z.eqb_eq in E6.
        destruct (merge_ok r left' E6) as [m Hm].
        assert (Hpm : pure_merge r left' = Ok m) by (unfold pure_merge, run_fresh; now rewrite Hm).
        rewrite Hpm.
        unfold merge_ranges.
        set (c2 := with_ranges c1 (list_set (ranges c1) (length pre) m)).
        assert (Hc2 : ranges c2 = pre ++ m :: r :: rest).
        { unfold c2. rewrite Hc1, list_set_pre, ranges_with_ranges by apply app_cons_neq_nil. reflexivity. }
        assert (Hmr : merge_ranges (length pre) (length pre) c1 = (Ok tt, with_ranges c (pre ++ m :: rest))).
        { unfold merge_ranges, bind, get_state. cbv beta.
          replace (nth_error (random c1) (length pre)) with (Some r)
            by (change (Some r = nth_error (ranges c1) (S (length pre))); rewrite Hc1; symmetry; apply nth_pre1).
          rewrite (on_range_ok c1 _ left' _ tt m) by first [exact Hm | rewrite Hc1; apply nth_pre].
          fold c2. unfold put_state. f_equal.
          rewrite set_random_with_ranges.
          change (serial c2 :: splice_remove (random c2) (length pre)) with (splice_remove (ranges c2) (S (length pre))).
          rewrite Hc2, <- Nat.add_1_r, splice_remove_app. simpl.
          unfold c2, c1. rewrite !with_ranges_twice by (try apply app_cons_neq_nil; destruct pre; discriminate). reflexivity. }
        rewrite (bind_ok _ _ c1 tt _ Hmr). reflexivity.
      * unfold ret. f_equal. unfold c1. rewrite Hc, list_set_pre. reflexivity.
    + unfold ret. f_equal. unfold c1. rewrite Hc, list_set_pre. reflexivity.
  - apply Z.eqb_neq in E5.
    destruct right as [r|]; simpl.
    + destruct (Row.byteOffset row + Row.byteCount row =? CSVRange.firstByte r) eqn:E6.
      * apply Z.eqb_eq in E6.
        destruct (prepend_ok row r H0 H1 E6) as [r' Hpr].
        assert (Hp : pure_prepend row r = Ok r') by (unfold pure_prepend, run_fresh; now rewrite Hpr).
        rewrite Hp.
        rewrite (bind_ok _ _ c tt _) by (apply (on_range_ok c _ r); [rewrite Hc; apply nth_pre1 | exact Hpr]).
        unfold ret. f_equal. rewrite Hc. simpl. rewrite list_set_pre1. reflexivity.
      * rewrite new_ok by exact H0.
        destruct (append_ok row (CSVRange.mk (Row.byteOffset row) 0 RowsCache.empty) H0 H1) as [nr Hnr].
        { unfold CSVRange.nextByte; simpl; lia. }
        assert (Hp : pure_append row (CSVRange.mk (Row.byteOffset row) 0 RowsCache.empty) = Ok nr)
          by (unfold pure_append, run_fresh; now rewrite Hnr).
        rewrite Hp.
        unfold bind, lift, get_state, put_state, ret. try rewrite new_ok by exact H0.
        unfold run_fresh. rewrite Hnr. f_equal.
        rewrite set_random_with_ranges.
        change (serial c :: splice_insert (random c) (length pre) nr) with (splice_insert (ranges c) (S (length pre)) nr).
        rewrite Hc, <- Nat.add_1_r, splice_insert_app. reflexivity.
    + rewrite new_ok by exact H0.
      destruct (append_ok row (CSVRange.mk (Row.byteOffset row) 0 RowsCache.empty) H0 H1) as [nr Hnr].
      { unfold CSVRange.nextByte; simpl; lia. }
      assert (Hp : pure_append row (CSVRange.mk (Row.byteOffset row) 0 RowsCache.empty) = Ok nr)
        by (unfold pure_append, run_fresh; now rewrite Hnr).
      rewrite Hp.
      unfold bind, lift, get_state, put_state, ret. try rewrite new_ok by exact H0.
      unfold run_fresh. rewrite Hnr. f_equal.
      rewrite set_random_with_ranges.
      change (serial c :: splice_insert (random c) (length pre) nr) with (splice_insert (ranges c) (S (length pre)) nr).
      rewrite Hc, <- Nat.add_1_r, splice_insert_app. reflexivity.
Qed.

Lemma store_loop_walk row c pre left rest :
  0 <= Row.byteOffset row -> 0 <= Row.byteCount row ->
  ranges c = pre ++ left :: rest ->
  store_loop row (map Some rest ++ [None]) (length pre) (length pre) c =
  match walk row left rest with
  | Ok (b, l) => (Ok b, with_ranges c (pre ++ l))
  | Throw e => (Throw e, c)
  end.
Proof.
  intros H0 H1. revert pre left. induction rest as [|r rest IH]; intros pre left Hc.
  - simpl store_loop. unfold bind at 1.
    rewrite (store_iter_spec row c pre left None []) by (auto; rewrite Hc, app_nil_r; reflexivity).
    cbn [walk].
    destruct (Row.byteOffset row <? CSVRange.firstByte left); [reflexivity|].
    destruct (Row.byteOffset row <? CSVRange.nextByte left).
    { destruct (CSVRange.nextByte left <? _); [reflexivity|].
      unfold ret. rewrite <- Hc, with_ranges_ranges. reflexivity. }
    simpl starts_at_or_after. cbv iota.
    destruct (place row left None []) as [[b l]|e]; reflexivity.
  - simpl store_loop. unfold bind at 1.
    rewrite (store_iter_spec row c pre left (Some r) rest) by (auto; rewrite Hc; reflexivity).
    cbn [walk].
    destruct (Row.byteOffset row <? CSVRange.firstByte left); [reflexivity|].
    destruct (Row.byteOffset row <? CSVRange.nextByte left).
    { destruct (CSVRange.nextByte left <? _); [reflexivity|].
      unfold ret. rewrite <- Hc, with_ranges_ranges. reflexivity. }
    simpl starts_at_or_after.
    destruct (CSVRange.firstByte r <=? Row.byteOffset row).
    + replace (S (length pre)) with (length (pre ++ [left])) by (rewrite length_app; simpl; lia).
      rewrite (IH (pre ++ [left]) r) by (rewrite Hc, <- app_assoc; reflexivity).
      destruct (walk row r rest) as [[b l]|e]; [|reflexivity].
      rewrite <- app_assoc. reflexivity.
    + destruct (place row left (Some r) rest) as [[b l]|e]; reflexivity.
Qed.

Lemma store_spec row c :
  CSVCache.store row c =
  match store_pure row c with
  | Ok (b, l) => (Ok b, with_ranges c l)
  | Throw e => (Throw e, c)
  end.
Proof.
  unfold CSVCache.store, store_pure, bind, lift, get_state, checkNonNegativeInteger.
  destruct (Row.byteOffset row <? 0) eqn:E1; [reflexivity|].
  destruct (Row.byteCount row <? 0) eqn:E2; [reflexivity|].
  destruct (byteLength c <? _); [reflexivity|].
  apply (store_loop_walk row c [] (serial c) (random c)); [lia|lia|reflexivity].
Qed.

Ltac mon := unfold CSVRange.on_rowsCache, RowsCache.append, RowsCache.prepend, RowsCache.merge in *;
  unfold bind, lift, get_state, put_state, ret, throw, checkNonNegativeInteger in *.

Lemma pure_append_spec row r r' :
  pure_append row r = Ok r' ->
  CSVRange.firstByte r' = CSVRange.firstByte r /\
  CSVRange.nextByte r' = Row.byteOffset row + Row.byteCount row /\
  Row.byteOffset row = CSVRange.nextByte r /\ 0 <= Row.byteOffset row /\ 0 <= Row.byteCount row /\
  RowsCache.rows (CSVRange.rowsCache r') = RowsCache.rows (CSVRange.rowsCache r) ++ cells_list (Row.cells row).
Proof.
  unfold pure_append, run_fresh, CSVRange.append, CSVRange.nextByte. mon.
  destruct (Row.byteOffset row <? 0) eqn:E1; [discriminate|].
  destruct (Row.byteCount row <? 0) eqn:E2; [discriminate|].
  destruct (Row.byteOffset row =? CSVRange.firstByte r + CSVRange.byteCount r) eqn:E3; simpl; [|discriminate].
  apply Z.eqb_eq in E3.
  destruct (Row.cells row); simpl; try rewrite E2; intros H; inversion H; subst; simpl; repeat split; try lia.
  all: try (rewrite app_nil_r; reflexivity).
Qed.

Lemma pure_prepend_spec row r r' :
  pure_prepend row r = Ok r' ->
  CSVRange.firstByte r' = Row.byteOffset row /\
  CSVRange.nextByte r' = CSVRange.nextByte r /\
  Row.byteOffset row + Row.byteCount row = CSVRange.firstByte r /\ 0 <= Row.byteOffset row /\ 0 <= Row.byteCount row /\
  RowsCache.rows (CSVRange.rowsCache r') = cells_list (Row.cells row) ++ RowsCache.rows (CSVRange.rowsCache r).
Proof.
  unfold pure_prepend, run_fresh, CSVRange.prepend, CSVRange.nextByte. mon.
  destruct (Row.byteOffset row <? 0) eqn:E1; [discriminate|].
  destruct (Row.byteCount row <? 0) eqn:E2; [discriminate|].
  destruct (Row.byteOffset row + Row.byteCount row =? CSVRange.firstByte r) eqn:E3; simpl; [|discriminate].
  apply Z.eqb_eq in E3.
  destruct (Row.cells row); simpl; try rewrite E2; intros H; inversion H; subst; simpl; repeat split; try lia.
Qed.

Lemma pure_merge_spec f r m :
  pure_merge f r = Ok m ->
  CSVRange.firstByte m = CSVRange.firstByte r /\
  CSVRange.nextByte m = CSVRange.nextByte f /\
  CSVRange.nextByte r = CSVRange.firstByte f /\
  RowsCache.rows (CSVRange.rowsCache m) = RowsCache.rows (CSVRange.rowsCache r) ++ RowsCache.rows (CSVRange.rowsCache f).
Proof.
  unfold pure_merge, run_fresh, CSVRange.merge, CSVRange.nextByte. mon.
  destruct (CSVRange.firstByte r + CSVRange.byteCount r =? CSVRange.firstByte f) eqn:E3; simpl; [|discriminate].
  apply Z.eqb_eq in E3. intros H; inversion H; subst; simpl; repeat split; lia.
Qed.

Lemma HdRel_before_weaken a b l :
  CSVRange.nextByte b <= CSVRange.nextByte a -> HdRel before a l -> HdRel before b l.
Proof.
  intros H1 H2. destruct l as [|y l]; constructor.
  apply HdRel_inv in H2. unfold before in *. lia.
Qed.

Ltac inv_lists :=
  repeat match goal with
  | H : Forall _ (_ :: _) |- _ => apply Forall_cons_iff in H as [? ?]
  | H : Sorted _ (_ :: _) |- _ => apply Sorted_inv in H as [? ?]
  | H : HdRel _ _ (_ :: _) |- _ => apply HdRel_inv in H
  end.

Lemma place_inv bl row left right rest b l :
  0 <= Row.byteOffset row -> 0 <= Row.byteCount row ->
  Row.byteOffset row + Row.byteCount row <= bl ->
  CSVRange.nextByte left <= Row.byteOffset row ->
  starts_at_or_after (Row.byteOffset row) right = false ->
  (right = None -> rest = []) ->
  Forall (range_wf bl) (left :: opt_list right ++ rest) ->
  Sorted before (left :: opt_list right ++ rest) ->
  place row left right rest = Ok (b, l) ->
  Forall (range_wf bl) l /\ Sorted before l /\
  exists x l', l = x :: l' /\ CSVRange.firstByte x = CSVRange.firstByte left.
Proof.
  intros H0 H1 Hb Hnl Hs Hnone Hwf Hsort Hp.
  unfold place in Hp.
  destruct (ends_after_start _ right) eqn:E4; [discriminate|].
  destruct (Row.byteOffset row =? CSVRange.nextByte left) eqn:E5.
  - apply Z.eqb_eq in E5.
    destruct (pure_append row left) as [left'|] eqn:Ha; [|discriminate].
    apply pure_append_spec in Ha as (Ha1 & Ha2 & _).
    destruct right as [r|]; simpl in *.
    + apply Z.ltb_ge in E4. apply Z.leb_gt in Hs.
      destruct (CSVRange.nextByte left' =? CSVRange.firstByte r) eqn:E6.
      * apply Z.eqb_eq in E6.
        destruct (pure_merge r left') as [m|] eqn:Hm; [|discriminate].
        injection Hp as <- <-.
        apply pure_merge_spec in Hm as (Hm1 & Hm2 & _).
        inv_lists.
        split; [|split].
        -- constructor; [|assumption]. unfold range_wf, CSVRange.nextByte in *. lia.
        -- constructor; [assumption|]. apply (HdRel_before_weaken r); [lia|assumption].
        -- eexists _, _. split; [reflexivity|lia].
      * apply Z.eqb_neq in E6. injection Hp as <- <-. inv_lists.
        split; [|split].
        -- repeat constructor; try assumption; unfold range_wf, CSVRange.nextByte in *; lia.
        -- constructor; [constructor; assumption|]. constructor. unfold before in *. lia.
        -- eexists _, _. split; [reflexivity|lia].
    + specialize (Hnone eq_refl). subst rest. injection Hp as <- <-. inv_lists.
      split; [|split].
      * repeat constructor. all: unfold range_wf, CSVRange.nextByte in *; lia.
      * repeat constructor.
      * eexists _, _. split; [reflexivity|lia].
  - apply Z.eqb_neq in E5.
    destruct right as [r|]; simpl in *.
    + apply Z.ltb_ge in E4. apply Z.leb_gt in Hs.
      destruct (Row.byteOffset row + Row.byteCount row =? CSVRange.firstByte r) eqn:E6.
      * destruct (pure_prepend row r) as [r'|] eqn:Hr; [|discriminate].
        injection Hp as <- <-. apply pure_prepend_spec in Hr as (Hr1 & Hr2 & _).
        inv_lists.
        split; [|split].
        -- repeat constructor; try assumption; unfold range_wf, CSVRange.nextByte in *; lia.
        -- constructor; [constructor; [assumption|]|].
           ++ apply (HdRel_before_weaken r); [lia|assumption].
           ++ constructor. unfold before in *. lia.
        -- eexists _, _. split; [reflexivity|lia].
      * apply Z.eqb_neq in E6. rewrite new_ok in Hp by exact H0.
        destruct (pure_append row _) as [nr|] eqn:Hn; [|discriminate].
        injection Hp as <- <-. apply pure_append_spec in Hn as (Hn1 & Hn2 & _). simpl in Hn1.
        inv_lists.
        split; [|split].
        -- repeat constructor; try assumption; unfold range_wf, CSVRange.nextByte in *; lia.
        -- repeat (constructor; try assumption); unfold before in *; lia.
        -- eexists _, _. split; [reflexivity|lia].
    + specialize (Hnone eq_refl). subst rest. rewrite new_ok in Hp by exact H0.
      destruct (pure_append row _) as [nr|] eqn:Hn; [|discriminate].
      injection Hp as <- <-. apply pure_append_spec in Hn as (Hn1 & Hn2 & _). simpl in Hn1.
      inv_lists.
      split; [|split].
      * repeat constructor; try assumption; unfold range_wf, CSVRange.nextByte in *; lia.
      * repeat constructor. unfold before in *; lia.
      * eexists _, _. split; [reflexivity|lia].
Qed.

Lemma walk_inv bl row left rest b l :
  0 <= Row.byteOffset row -> 0 <= Row.byteCount row ->
  Row.byteOffset row + Row.byteCount row <= bl ->
  Forall (range_wf bl) (left :: rest) -> Sorted before (left :: rest) ->
  walk row left rest = Ok (b, l) ->
  Forall (range_wf bl) l /\ Sorted before l /\
  exists x l', l = x :: l' /\ CSVRange.firstByte x = CSVRange.firstByte left.
Proof.
  intros H0 H1 Hb. revert left b l. induction rest as [|r rest IH]; intros left b l Hwf Hsort Hw.
  - cbn [walk] in Hw.
    destruct (Row.byteOffset row <? CSVRange.firstByte left); [discriminate|].
    destruct (Row.byteOffset row <? CSVRange.nextByte left) eqn:E2.
    { destruct (CSVRange.nextByte left <? _); [discriminate|]. injection Hw as <- <-.
      split; [|split]; eauto. }
    apply Z.ltb_ge in E2.
    eapply (place_inv bl row left None []); eauto.
  - cbn [walk] in Hw.
    destruct (Row.byteOffset row <? CSVRange.firstByte left); [discriminate|].
    destruct (Row.byteOffset row <? CSVRange.nextByte left) eqn:E2.
    { destruct (CSVRange.nextByte left <? _); [discriminate|]. injection Hw as <- <-.
      split; [|split]; eauto. }
    apply Z.ltb_ge in E2.
    destruct (CSVRange.firstByte r <=? Row.byteOffset row) eqn:E3.
    + destruct (walk row r rest) as [[b' l']|] eqn:Hw'; [|discriminate].
      injection Hw as <- <-.
      pose proof Hwf as Hwf'. pose proof Hsort as Hsort'. inv_lists.
      destruct (IH r b' l') as (IH1 & IH2 & x & l'' & -> & Hx); auto.
      split; [|split].
      * constructor; assumption.
      * constructor; [assumption|]. constructor. unfold before in *. lia.
      * eexists _, _. split; [reflexivity|reflexivity].
    + eapply (place_inv bl row left (Some r) rest); eauto; discriminate.
Qed.

Lemma with_ranges_frame c l :
  byteLength (with_ranges c l) = byteLength c /\
  columnNames (with_ranges c l) = columnNames c /\
  headerByteCount (with_ranges c l) = headerByteCount c /\
  delimiter (with_ranges c l) = delimiter c /\
  newline (with_ranges c l) = newline c.
Proof. destruct l; repeat split. Qed.

Lemma store_pure_inv c row b l :
  cache_inv c -> store_pure row c = Ok (b, l) ->
  Forall (range_wf (byteLength c)) l /\ Sorted before l /\
  exists x l', l = x :: l' /\ CSVRange.firstByte x = 0.
Proof.
  intros (Hz & Hwf & Hs) Hp. unfold store_pure, checkNonNegativeInteger in Hp.
  destruct (Row.byteOffset row <? 0) eqn:E1; [discriminate|].
  destruct (Row.byteCount row <? 0) eqn:E2; [discriminate|].
  destruct (byteLength c <? _) eqn:E3; [discriminate|].
  rewrite <- Hz. eapply walk_inv; eauto; lia.
Qed.

Lemma store_inv c row b c' :
  cache_inv c -> CSVCache.store row c = (Ok b, c') -> cache_inv c'.
Proof.
  intros Hi Hst. rewrite store_spec in Hst.
  destruct (store_pure row c) as [[b0 l]|] eqn:Hp; [|discriminate].
  injection Hst as <- <-.
  destruct (store_pure_inv c row b0 l Hi Hp) as (Hwf & Hs & x & l' & -> & Hx).
  destruct (with_ranges_frame c (x :: l')) as (Hbl & _).
  unfold cache_inv. rewrite ranges_with_ranges, Hbl by discriminate.
  repeat split; assumption.
Qed.

Lemma new_inv cols h bl d nl c : CSVCache.new cols h bl d nl = Ok c -> cache_inv c.
Proof.
  unfold CSVCache.new, checkNonNegativeInteger.
  set (h0 := match h with Some h => h | None => 0 end).
  destruct (h0 <? 0) eqn:E1; [discriminate|].
  destruct (bl <? 0) eqn:E2; [discriminate|].
  destruct cols; [discriminate|].
  destruct (bl <? h0) eqn:E3; [discriminate|].
  rewrite new_ok by lia.
  destruct (run_fresh _ _) as [sr|] eqn:Ha; [|discriminate].
  intros H; injection H as <-.
  apply (pure_append_spec (Row.mk 0 h0 None)) in Ha as (Ha1 & Ha2 & _). simpl in *.
  unfold cache_inv, range_wf, CSVCache.ranges. simpl.
  repeat constructor; unfold CSVRange.nextByte in *; lia.
Qed.

Lemma reachable_inv c : reachable c -> cache_inv c.
Proof.
  induction 1 as [cols h bl d nl c Hn | c row b c' _ IH Hs].
  - eapply new_inv; eauto.
  - eapply store_inv; eauto.
Qed.

Lemma sorted_before_forall bl x l :
  Forall (range_wf bl) l -> Sorted before (x :: l) -> Forall (before x) l.
Proof.
  revert x. induction l as [|y l IH]; intros x Hwf Hs; [constructor|].
  apply Sorted_inv in Hs as [Hs Hh]. apply HdRel_inv in Hh.
  apply Forall_cons_iff in Hwf as [Hy Hl].
  constructor; [assumption|].
  specialize (IH y Hl Hs). eapply Forall_impl; [|exact IH].
  intros z Hz. unfold before, range_wf, CSVRange.nextByte in *. lia.
Qed.

Lemma sorted_before_pairs bl l :
  Forall (range_wf bl) l -> Sorted before l -> ForallOrdPairs before l.
Proof.
  induction l as [|x l IH]; intros Hwf Hs; constructor.
  - eapply sorted_before_forall; [inv_lists; eassumption|exact Hs].
  - inv_lists. auto.
Qed.

Lemma sorted_before_firstByte bl l :
  Forall (range_wf bl) l -> Sorted before l ->
  Sorted (fun a b => CSVRange.firstByte a < CSVRange.firstByte b) l.
Proof.
  induction l as [|x l IH]; intros Hwf Hs; constructor; inv_lists; auto.
  destruct l as [|y l]; constructor. inv_lists.
  unfold before, range_wf, CSVRange.nextByte in *. lia.
Qed.

Lemma complete_inv c :
  cache_inv c ->
  CSVCache.complete c = Ok (CSVRange.nextByte (serial c) =? byteLength c) /\
  (CSVRange.nextByte (serial c) = byteLength c -> random c = []).
Proof.
  intros (Hz & Hwf & Hs). unfold CSVCache.ranges in *. inv_lists.
  assert (Hr : CSVRange.nextByte (serial c) = byteLength c -> random c = []).
  { intros He. destruct (random c) as [|r l] eqn:Er; [reflexivity|]. inv_lists.
    unfold before, range_wf, CSVRange.nextByte in *. lia. }
  split; [|exact Hr].
  unfold CSVCache.complete.
  destruct (byteLength c <? CSVRange.nextByte (serial c)) eqn:E1.
  { unfold range_wf in *. lia. }
  destruct (CSVRange.nextByte (serial c) =? byteLength c) eqn:E2; [|reflexivity].
  apply Z.eqb_eq in E2. rewrite (Hr E2). reflexivity.
Qed.

Lemma place_contains row left right rest b l :
  CSVRange.firstByte left <= Row.byteOffset row ->
  (forall r, right = Some r -> CSVRange.firstByte r <= CSVRange.nextByte r) ->
  place row left right rest = Ok (b, l) ->
  exists x, In x l /\ contains row x.
Proof.
  intros Hl Hr Hp. unfold place, contains in *.
  destruct (ends_after_start _ right) eqn:E4; [discriminate|].
  destruct (Row.byteOffset row =? CSVRange.nextByte left) eqn:E5.
  - apply Z.eqb_eq in E5.
    destruct (pure_append row left) as [left'|] eqn:Ha; [|discriminate].
    apply pure_append_spec in Ha as (Ha1 & Ha2 & _).
    destruct right as [r|].
    + specialize (Hr r eq_refl). simpl in E4. apply Z.ltb_ge in E4.
      destruct (CSVRange.nextByte left' =? CSVRange.firstByte r) eqn:E6.
      * apply Z.eqb_eq in E6.
        destruct (pure_merge r left') as [m|] eqn:Hm; [|discriminate].
        injection Hp as <- <-. apply pure_merge_spec in Hm as (Hm1 & Hm2 & _).
        exists m. split; [left; reflexivity|lia].
      * injection Hp as <- <-. exists left'. split; [left; reflexivity|lia].
    + injection Hp as <- <-. exists left'. split; [left; reflexivity|lia].
  - destruct right as [r|].
    + specialize (Hr r eq_refl). simpl in E4. apply Z.ltb_ge in E4.
      destruct (Row.byteOffset row + Row.byteCount row =? CSVRange.firstByte r) eqn:E6.
      * destruct (pure_prepend row r) as [r'|] eqn:Hq; [|discriminate].
        injection Hp as <- <-. apply pure_prepend_spec in Hq as (Hq1 & Hq2 & Hq3 & _).
        exists r'. split; [right; left; reflexivity|lia].
      * destruct (CSVRange.new _) as [nr|] eqn:Hn; [|discriminate].
        unfold CSVRange.new, checkNonNegativeInteger in Hn.
        destruct (_ <? 0); [discriminate|]. injection Hn as <-.
        destruct (pure_append row _) as [nr'|] eqn:Ha; [|discriminate].
        injection Hp as <- <-. apply pure_append_spec in Ha as (Ha1 & Ha2 & _).
        simpl in Ha1. exists nr'. split; [right; left; reflexivity|lia].
    + destruct (CSVRange.new _) as [nr|] eqn:Hn; [|discriminate].
      unfold CSVRange.new, checkNonNegativeInteger in Hn.
      destruct (_ <? 0); [discriminate|]. injection Hn as <-.
      destruct (pure_append row _) as [nr'|] eqn:Ha; [|discriminate].
      injection Hp as <- <-. apply pure_append_spec in Ha as (Ha1 & Ha2 & _).
      simpl in Ha1. exists nr'. split; [right; left; reflexivity|lia].
Qed.

Lemma walk_contains bl row left rest b l :
  Forall (range_wf bl) (left :: rest) ->
  walk row left rest = Ok (b, l) ->
  exists x, In x l /\ contains row x.
Proof.
  revert left b l. induction rest as [|r rest IH]; intros left b l Hwf Hw; cbn [walk] in Hw.
  - destruct (Row.byteOffset row <? CSVRange.firstByte left) eqn:E1; [discriminate|].
    apply Z.ltb_ge in E1.
    destruct (Row.byteOffset row <? CSVRange.nextByte left) eqn:E2.
    + destruct (CSVRange.nextByte left <? _) eqn:E3; [discriminate|].
      injection Hw as <- <-. apply Z.ltb_ge in E3. exists left.
      split; [left; reflexivity|unfold contains; lia].
    + eapply place_contains; [exact E1| |exact Hw]. discriminate.
  - destruct (Row.byteOffset row <? CSVRange.firstByte left) eqn:E1; [discriminate|].
    apply Z.ltb_ge in E1.
    destruct (Row.byteOffset row <? CSVRange.nextByte left) eqn:E2.
    + destruct (CSVRange.nextByte left <? _) eqn:E3; [discriminate|].
      injection Hw as <- <-. apply Z.ltb_ge in E3. exists left.
      split; [left; reflexivity|unfold contains; lia].
    + inv_lists.
      destruct (CSVRange.firstByte r <=? Row.byteOffset row).
      * destruct (walk row r rest) as [[b' l']|] eqn:Hw'; [|discriminate].
        injection Hw as <- <-.
        destruct (IH r b' l') as (x & Hx & Hc); [constructor; assumption|exact Hw'|].
        exists x. split; [right; exact Hx|exact Hc].
      * eapply place_contains; [exact E1| |exact Hw].
        intros r' Hr'. injection Hr' as <-. unfold range_wf, CSVRange.nextByte in *. lia.
Qed.

Lemma walk_dup bl row left rest x :
  Forall (range_wf bl) (left :: rest) -> Sorted before (left :: rest) ->
  In x (left :: rest) -> contains row x -> 0 < Row.byteCount row ->
  CSVRange.firstByte left <= Row.byteOffset row ->
  walk row left rest = Ok (false, left :: rest).
Proof.
  revert left. induction rest as [|r rest IH]; intros left Hwf Hs Hin Hc Hpos Hl;
    unfold contains in Hc; cbn [walk].
  - destruct Hin as [->|[]].
    destruct (Row.byteOffset row <? CSVRange.firstByte x) eqn:E1; [apply Z.ltb_lt in E1; lia|].
    destruct (Row.byteOffset row <? CSVRange.nextByte x) eqn:E2; [|apply Z.ltb_ge in E2; lia].
    destruct (CSVRange.nextByte x <? _) eqn:E3; [apply Z.ltb_lt in E3; lia|reflexivity].
  - destruct (Row.byteOffset row <? CSVRange.firstByte left) eqn:E1; [apply Z.ltb_lt in E1; lia|].
    destruct Hin as [->|Hin].
    + destruct (Row.byteOffset row <? CSVRange.nextByte x) eqn:E2; [|apply Z.ltb_ge in E2; lia].
      destruct (CSVRange.nextByte x <? _) eqn:E3; [apply Z.ltb_lt in E3; lia|reflexivity].
    + assert (Hb : Forall (before left) (r :: rest)) by (eapply sorted_before_forall; [exact (Forall_inv_tail Hwf)|exact Hs]).
      rewrite Forall_forall in Hb. pose proof (Hb x Hin) as Hbx. unfold before in Hbx.
      destruct (Row.byteOffset row <? CSVRange.nextByte left) eqn:E2; [apply Z.ltb_lt in E2; lia|].
      assert (Hr : CSVRange.firstByte r <= CSVRange.firstByte x).
      { destruct Hin as [<-|Hin]; [lia|].
        assert (Hb' : Forall (before r) rest) by (eapply sorted_before_forall; [exact (Forall_inv_tail (Forall_inv_tail Hwf))|exact (proj1 (Sorted_inv Hs))]).
        rewrite Forall_forall in Hb'. specialize (Hb' x Hin). inv_lists.
        unfold before, range_wf, CSVRange.nextByte in *. lia. }
      destruct (CSVRange.firstByte r <=? Row.byteOffset row) eqn:E3; [|apply Z.leb_gt in E3; lia].
      inv_lists.
      rewrite (IH r); [reflexivity| constructor; auto | auto | auto | unfold contains; lia | auto | lia].
Qed.

End StoreProofs.

(** ** Completeness, [getStatus] and the rows of the ranges *)
Module EstimatorProofs.
Import StoreProofs CSVCache Walk.

Lemma walk_head_nextByte bl row left rest b x l :
  Forall (range_wf bl) rest ->
  Walk.walk row left rest = Ok (b, x :: l) ->
  CSVRange.nextByte left <= CSVRange.nextByte x.
Proof.
  destruct rest as [|r rest]; intros Hwf Hw; cbn [Walk.walk] in Hw.
  all: destruct (Row.byteOffset row <? CSVRange.firstByte left); [discriminate|].
  all: destruct (Row.byteOffset row <? CSVRange.nextByte left) eqn:E2;
    [destruct (CSVRange.nextByte left <? _); [discriminate|]; injection Hw as <- <- <-; lia|].
  2: destruct (CSVRange.firstByte r <=? Row.byteOffset row);
     [destruct (Walk.walk row r rest) as [[b' l']|]; [injection Hw as <- <- <-; lia|discriminate]|].
  all: unfold Walk.place in Hw.
  all: destruct (ends_after_start _ _) eqn:E4; [discriminate|].
  all: destruct (Row.byteOffset row =? CSVRange.nextByte left) eqn:E5.
  all: try (destruct (Walk.pure_append row left) as [left'|] eqn:Ha; [|discriminate];
            apply pure_append_spec in Ha as (Ha1 & Ha2 & Ha3 & Ha4 & Ha5 & _)).
  - injection Hw as <- <- <-. lia.
  - destruct (CSVRange.new _); [|discriminate].
    destruct (Walk.pure_append _ _); [injection Hw as <- <- <-; lia|discriminate].
  - inv_lists. simpl in E4. apply Z.ltb_ge in E4.
    destruct (CSVRange.nextByte left' =? CSVRange.firstByte r) eqn:E6.
    + apply Z.eqb_eq in E6.
      destruct (Walk.pure_merge r left') as [m|] eqn:Hm; [|discriminate].
      injection Hw as <- <- <-. apply pure_merge_spec in Hm as (_ & Hm2 & _).
      unfold range_wf, CSVRange.nextByte in *. lia.
    + injection Hw as <- <- <-. lia.
  - destruct (_ =? CSVRange.firstByte r).
    + destruct (Walk.pure_prepend row r); [injection Hw as <- <- <-; lia|discriminate].
    + destruct (CSVRange.new _); [|discriminate].
      destruct (Walk.pure_append _ _); [injection Hw as <- <- <-; lia|discriminate].
Qed.

Lemma store_keeps_complete c row b c' :
  cache_inv c -> CSVCache.complete c = Ok true ->
  CSVCache.store row c = (Ok b, c') ->
  cache_inv c' /\ CSVCache.complete c' = Ok true.
Proof.
  intros Hi Hc Hs.
  pose proof (store_inv c row b c' Hi Hs) as Hi'.
  split; [exact Hi'|].
  destruct (complete_inv c Hi) as [Hc0 _]. rewrite Hc0 in Hc. injection Hc as Hc. apply Z.eqb_eq in Hc.
  destruct (complete_inv c' Hi') as [Hc1 _]. rewrite Hc1. f_equal. apply Z.eqb_eq.
  rewrite store_spec in Hs.
  destruct (Walk.store_pure row c) as [[b0 l]|] eqn:Hp; [|discriminate].
  injection Hs as _ <-.
  destruct (store_pure_inv c row b0 l Hi Hp) as (Hwf & _ & x & l' & -> & _).
  destruct (with_ranges_frame c (x :: l')) as (Hbl & _). rewrite Hbl. simpl.
  unfold Walk.store_pure in Hp.
  destruct (checkNonNegativeInteger _); [|discriminate].
  destruct (checkNonNegativeInteger _); [|discriminate].
  destruct (_ <? _); [discriminate|].
  destruct Hi as (_ & Hwf0 & _). unfold CSVCache.ranges in Hwf0. inv_lists.
  pose proof (walk_head_nextByte _ row _ _ _ _ _ H2 Hp).
  unfold range_wf in *. lia.
Qed.

Lemma js_index_nth {A} (l : list A) i d :
  0 <= i < Z.of_nat (length l) -> js_index l i = Some (nth (Z.to_nat i) l d).
Proof.
  intros H. unfold js_index. destruct (i <? 0) eqn:E; [lia|].
  apply nth_error_nth'. lia.
Qed.

Lemma getStatus_loop_classify avg a c row snap rights left :
  avg = Some a -> ~ (a == 0)%Q -> Estimator.firstRow left <= row ->
  Estimator.getStatus_loop avg c row snap left rights =
  SpecSide.classify avg a c row snap left rights.
Proof.
  intros Ha Hnz. subst avg. revert left.
  induction rights as [|rr rest IH]; intros left Hfr; [reflexivity|].
  cbn [Estimator.getStatus_loop SpecSide.classify].
  destruct (Estimator.firstRow left <=? row) eqn:E0; [|apply Z.leb_gt in E0; lia]. simpl andb.
  destruct (row <? _) eqn:E1.
  - unfold CSVRange.getRow. rewrite (js_index_nth _ _ []); [reflexivity|].
    apply Z.ltb_lt in E1. unfold Estimator.rangeNumRows, RowsCache.numRows in E1. lia.
  - destruct (row =? _); [reflexivity|].
    destruct (Qeq_bool a 0) eqn:Eq; [apply Qeq_bool_iff in Eq; contradiction|].
    destruct (row <? Estimator.rightFirstRow _ _ _ _ _ _ _) eqn:E2; [reflexivity|].
    apply Z.ltb_ge in E2.
    destruct rr as [r|]; apply IH; [exact E2|exact Hfr].
Qed.

Lemma getStatus_loop_unknown avg c row snap rights left :
  Estimator.getStatus_loop avg c row snap left rights = Ok Estimator.Unknown ->
  exists a, avg = Some a /\ (a == 0)%Q.
Proof.
  revert left. induction rights as [|rr rest IH]; intros left H; [discriminate|].
  cbn [Estimator.getStatus_loop] in H.
  destruct (row <? _); [destruct (CSVRange.getRow _ _); discriminate|].
  destruct (row =? _); [discriminate|].
  destruct avg as [a|]; [|discriminate].
  destruct (Qeq_bool a 0) eqn:Eq; [exists a; split; [reflexivity|apply Qeq_bool_iff; exact Eq]|].
  destruct (row <? _); [discriminate|]. eapply IH; exact H.
Qed.

Lemma chain_mono_hi lo hi hi' es : chain lo hi es -> hi <= hi' -> chain lo hi' es.
Proof.
  revert lo. induction es as [|[[o n] cs] es IH]; simpl; intros lo H1 H2; [lia|].
  destruct H1 as (? & ? & ?). split; [|split]; auto.
Qed.

Lemma chain_mono_lo lo lo' hi es : chain lo hi es -> lo' <= lo -> chain lo' hi es.
Proof.
  destruct es as [|[[o n] cs] es]; simpl; intros H1 H2; [lia|].
  destruct H1 as (? & ? & ?). split; [lia|split; auto].
Qed.

Lemma chain_app lo m hi es1 es2 : chain lo m es1 -> chain m hi es2 -> chain lo hi (es1 ++ es2).
Proof.
  revert lo. induction es1 as [|[[o n] cs] es1 IH]; simpl; intros lo H1 H2.
  - eapply chain_mono_lo; eauto.
  - destruct H1 as (? & ? & ?). split; [|split]; auto.
Qed.

Lemma chain_sorted lo hi es :
  chain lo hi es ->
  Forall (fun x => lo <= fst x) (map drop_count es) /\
  Sorted (fun x y => fst x <= fst y) (map drop_count es).
Proof.
  revert lo. induction es as [|[[o n] cs] es IH]; simpl; intros lo H; [split; constructor|].
  destruct H as (H1 & H2 & H3). destruct (IH _ H3) as [IH1 IH2].
  split.
  - constructor; [simpl; lia|]. eapply Forall_impl; [|exact IH1]. simpl. intros; lia.
  - constructor; [exact IH2|]. destruct (map drop_count es) as [|y l]; constructor.
    inversion IH1; subst. simpl in *. lia.
Qed.

Lemma new_entries_snd row : map snd (new_entries row) = cells_list (Row.cells row).
Proof. unfold new_entries, cells_list. destruct (Row.cells row); reflexivity. Qed.

Lemma new_entries_drop row : map drop_count (new_entries row) = stored_rows row.
Proof. unfold new_entries, stored_rows. destruct (Row.cells row); reflexivity. Qed.

Lemma append_entries row r r' es :
  Walk.pure_append row r = Ok r' -> range_entries r es ->
  range_entries r' (es ++ new_entries row).
Proof.
  intros Ha [Hr Hc]. apply pure_append_spec in Ha as (H1 & H2 & H3 & H4 & H5 & H6).
  split.
  - rewrite H6, map_app, Hr, new_entries_snd. reflexivity.
  - rewrite H1, H2. unfold new_entries. destruct (Row.cells row).
    + eapply chain_app; [exact Hc|]. simpl. lia.
    + rewrite app_nil_r. eapply chain_mono_hi; [exact Hc|lia].
Qed.

Lemma prepend_entries row r r' es :
  Walk.pure_prepend row r = Ok r' -> range_entries r es ->
  range_entries r' (new_entries row ++ es).
Proof.
  intros Ha [Hr Hc]. apply pure_prepend_spec in Ha as (H1 & H2 & H3 & H4 & H5 & H6).
  split.
  - rewrite H6, map_app, Hr, new_entries_snd. reflexivity.
  - rewrite H1, H2. unfold new_entries. destruct (Row.cells row); simpl.
    + split; [lia|split; [lia|]]. rewrite H3. exact Hc.
    + eapply chain_mono_lo; [exact Hc|lia].
Qed.

Lemma merge_entries f r m es1 es2 :
  Walk.pure_merge f r = Ok m -> range_entries r es1 -> range_entries f es2 ->
  range_entries m (es1 ++ es2).
Proof.
  intros Hm [Hr1 Hc1] [Hr2 Hc2]. apply pure_merge_spec in Hm as (H1 & H2 & H3 & H4).
  split.
  - rewrite H4, map_app, Hr1, Hr2. reflexivity.
  - rewrite H1, H2. eapply chain_app; [exact Hc1|]. rewrite H3. exact Hc2.
Qed.

Lemma fresh_entries row nr nr' :
  CSVRange.new (Row.byteOffset row) = Ok nr -> Walk.pure_append row nr = Ok nr' ->
  range_entries nr' (new_entries row).
Proof.
  intros Hn Ha. unfold CSVRange.new, checkNonNegativeInteger in Hn.
  destruct (Row.byteOffset row <? 0); [discriminate|]. injection Hn as <-.
  apply (append_entries row _ _ []) in Ha; [exact Ha|].
  split; [reflexivity|]. simpl. unfold CSVRange.nextByte. simpl. lia.
Qed.

Lemma perm_insert {A} (a n b : list A) : Permutation (a ++ n ++ b) (n ++ a ++ b).
Proof.
  rewrite !app_assoc. apply Permutation_app_tail. apply Permutation_app_comm.
Qed.

Lemma Forall2_cons_l {A B} (R : A -> B -> Prop) x l E :
  Forall2 R (x :: l) E -> exists e E', E = e :: E' /\ R x e /\ Forall2 R l E'.
Proof. intros H. inversion H; subst. eauto. Qed.

Lemma place_entries row left right rest b l E :
  Forall2 range_entries (left :: Walk.opt_list right ++ rest) E ->
  Walk.place row left right rest = Ok (b, l) ->
  b = true /\ exists E', Forall2 range_entries l E' /\
    Permutation (concat E') (new_entries row ++ concat E).
Proof.
  intros HE Hp. unfold Walk.place in Hp.
  destruct (ends_after_start _ right); [discriminate|].
  destruct (Row.byteOffset row =? CSVRange.nextByte left).
  - destruct (Walk.pure_append row left) as [left'|] eqn:Ha; [|discriminate].
    apply Forall2_cons_l in HE as (e & E1 & -> & He & HE).
    destruct right as [r|]; simpl in HE.
    + apply Forall2_cons_l in HE as (e0 & E0 & -> & He0 & HE).
      destruct (CSVRange.nextByte left' =? CSVRange.firstByte r).
      * destruct (Walk.pure_merge r left') as [m|] eqn:Hm; [|discriminate].
        injection Hp as <- <-. split; [reflexivity|].
        exists (((e ++ new_entries row) ++ e0) :: E0). split.
        -- constructor; [|assumption]. eapply merge_entries; [exact Hm| |exact He0].
           eapply append_entries; eassumption.
        -- simpl. rewrite <- !app_assoc. apply perm_insert.
      * injection Hp as <- <-. split; [reflexivity|].
        exists ((e ++ new_entries row) :: e0 :: E0). split.
        -- constructor; [eapply append_entries; eassumption|constructor; assumption].
        -- simpl. rewrite <- !app_assoc. apply perm_insert.
    + injection Hp as <- <-. split; [reflexivity|].
      exists ((e ++ new_entries row) :: E1). split.
      * constructor; [|assumption]. eapply append_entries; eassumption.
      * simpl. rewrite <- !app_assoc. apply perm_insert.
  - apply Forall2_cons_l in HE as (e & E1 & -> & He & HE).
    destruct right as [r|]; simpl in HE.
    + apply Forall2_cons_l in HE as (e0 & E0 & -> & He0 & HE).
      destruct (_ =? CSVRange.firstByte r).
      * destruct (Walk.pure_prepend row r) as [r'|] eqn:Hq; [|discriminate].
        injection Hp as <- <-. split; [reflexivity|].
        exists (e :: (new_entries row ++ e0) :: E0). split.
        -- constructor; [assumption|constructor; [eapply prepend_entries; eassumption|assumption]].
        -- simpl. rewrite <- !app_assoc. apply perm_insert.
      * destruct (CSVRange.new _) as [nr|] eqn:Hn; [|discriminate].
        destruct (Walk.pure_append row nr) as [nr'|] eqn:Ha; [|discriminate].
        injection Hp as <- <-. split; [reflexivity|].
        exists (e :: new_entries row :: e0 :: E0). split.
        -- constructor; [assumption|constructor; [eapply fresh_entries; eassumption|constructor; assumption]].
        -- simpl. apply perm_insert.
    + destruct (CSVRange.new _) as [nr|] eqn:Hn; [|discriminate].
      destruct (Walk.pure_append row nr) as [nr'|] eqn:Ha; [|discriminate].
      injection Hp as <- <-. split; [reflexivity|].
      exists (e :: new_entries row :: E1). split.
      * constructor; [assumption|constructor; [eapply fresh_entries; eassumption|assumption]].
      * simpl. apply perm_insert.
Qed.

Lemma walk_entries row left rest b l E :
  Forall2 range_entries (left :: rest) E ->
  Walk.walk row left rest = Ok (b, l) ->
  exists E', Forall2 range_entries l E' /\
    Permutation (concat E') ((if b then new_entries row else []) ++ concat E).
Proof.
  revert left b l E. induction rest as [|r rest IH]; intros left b l E HE Hw; cbn [Walk.walk] in Hw.
  - destruct (Row.byteOffset row <? CSVRange.firstByte left); [discriminate|].
    destruct (Row.byteOffset row <? CSVRange.nextByte left).
    + destruct (CSVRange.nextByte left <? _); [discriminate|]. injection Hw as <- <-.
      exists E. split; [exact HE|reflexivity].
    + destruct (place_entries row left None [] b l E) as [-> (E' & H1 & H2)]; [exact HE|exact Hw|].
      exists E'. split; assumption.
  - destruct (Row.byteOffset row <? CSVRange.firstByte left); [discriminate|].
    destruct (Row.byteOffset row <? CSVRange.nextByte left).
    + destruct (CSVRange.nextByte left <? _); [discriminate|]. injection Hw as <- <-.
      exists E. split; [exact HE|reflexivity].
    + destruct (CSVRange.firstByte r <=? Row.byteOffset row).
      * destruct (Walk.walk row r rest) as [[b' l']|] eqn:Hw'; [|discriminate].
        injection Hw as <- <-.
        apply Forall2_cons_l in HE as (e & E1 & -> & He & HE).
        destruct (IH r b' l' E1 HE Hw') as (E' & H1 & H2).
        exists (e :: E'). split; [constructor; assumption|].
        simpl. rewrite H2. apply perm_insert.
      * destruct (place_entries row left (Some r) rest b l E) as [-> (E' & H1 & H2)]; [exact HE|exact Hw|].
        exists E'. split; assumption.
Qed.

Lemma reachable_with_reachable c W : reachable_with c W -> reachable c.
Proof.
  induction 1; [eapply reachable_new; eassumption|eapply reachable_store; eassumption].
Qed.

Lemma reachable_with_entries c W :
  reachable_with c W ->
  exists E, Forall2 range_entries (CSVCache.ranges c) E /\
    Permutation (map drop_count (concat E)) W.
Proof.
  induction 1 as [cols h bl d nl c Hn | c W row b c' Hrw IH Hs].
  - exists [[]]. split; [|reflexivity].
    unfold CSVCache.new, checkNonNegativeInteger in Hn.
    set (h0 := match h with Some h => h | None => 0 end) in Hn.
    destruct (h0 <? 0) eqn:E1; [discriminate|].
    destruct (bl <? 0); [discriminate|].
    destruct cols; [discriminate|].
    destruct (bl <? h0); [discriminate|].
    rewrite new_ok in Hn by lia.
    destruct (run_fresh _ _) as [sr|] eqn:Ha; [|discriminate].
    injection Hn as <-.
    apply (pure_append_spec (Row.mk 0 h0 None)) in Ha as (Ha1 & Ha2 & Ha3 & _ & _ & Ha6).
    constructor; [|constructor]. split.
    + simpl. rewrite Ha6. reflexivity.
    + simpl in *. lia.
  - destruct IH as (E & HE & HP).
    pose proof (reachable_inv c (reachable_with_reachable c W Hrw)) as Hi.
    rewrite store_spec in Hs.
    destruct (Walk.store_pure row c) as [[b0 l]|] eqn:Hp; [|discriminate].
    injection Hs as <- <-.
    destruct (store_pure_inv c row b0 l Hi Hp) as (_ & _ & x & l' & -> & _).
    rewrite ranges_with_ranges by discriminate.
    unfold Walk.store_pure in Hp.
    destruct (checkNonNegativeInteger _); [|discriminate].
    destruct (checkNonNegativeInteger _); [|discriminate].
    destruct (_ <? _); [discriminate|].
    destruct (walk_entries row _ _ _ _ E HE Hp) as (E' & H1 & H2).
    exists E'. split; [exact H1|].
    rewrite H2, map_app, HP. destruct b0.
    + rewrite new_entries_drop. apply Permutation_app_comm.
    + reflexivity.
Qed.

End EstimatorProofs.

(** ** The claims *)
Module Claims.
Import StoreProofs EstimatorProofs CSVCache Walk.

(** C1 (coverage invariant).  In every cache reachable from the constructor
    by successful [store] calls: the serial range starts at byte 0; the random
    ranges are sorted by first byte; every range ends strictly before any later
    range (serial first) starts, so no two ranges overlap or are contiguous; the
    [complete] getter does not throw and tells whether the serial range reaches
    [byteLength]; and when it is [true] the random list is empty and the serial
    range covers [[0, byteLength)]. *)
Theorem store_coverage_invariant c :
  reachable c ->
  CSVRange.firstByte (serial c) = 0 /\
  Sorted (fun a b => CSVRange.firstByte a < CSVRange.firstByte b) (random c) /\
  ForallOrdPairs (fun a b => CSVRange.nextByte a < CSVRange.firstByte b) (ranges c) /\
  CSVCache.complete c = Ok (CSVRange.nextByte (serial c) =? byteLength c) /\
  (CSVCache.complete c = Ok true ->
   random c = [] /\ CSVRange.firstByte (serial c) = 0 /\
   CSVRange.nextByte (serial c) = byteLength c).
Proof.
  intros Hr. pose proof (reachable_inv c Hr) as Hi.
  destruct (complete_inv c Hi) as [Hc Hrand].
  destruct Hi as (Hz & Hwf & Hs).
  split; [exact Hz|]. split.
  { unfold CSVCache.ranges in *. inv_lists. eapply sorted_before_firstByte; eauto. }
  split; [eapply sorted_before_pairs; eauto|].
  split; [exact Hc|].
  rewrite Hc. intros H. injection H as H. apply Z.eqb_eq in H. auto.
Qed.

(** C1: the invariant at a cache with a random range. *)
Lemma store_coverage_invariant_witness :
  reachable (snd (CSVCache.store (Row.mk 5 2 (Some ["b"%string]))
     (CSVCache.mk 12 ["a"%string] 0 (CSVRange.mk 0 0 RowsCache.empty) [] ","%string LF))) /\
  let c := snd (CSVCache.store (Row.mk 5 2 (Some ["b"%string]))
     (CSVCache.mk 12 ["a"%string] 0 (CSVRange.mk 0 0 RowsCache.empty) [] ","%string LF)) in
  CSVRange.firstByte (CSVCache.serial c) = 0 /\
  Sorted (fun a b => CSVRange.firstByte a < CSVRange.firstByte b) (CSVCache.random c) /\
  ForallOrdPairs (fun a b => CSVRange.nextByte a < CSVRange.firstByte b) (CSVCache.ranges c) /\
  CSVCache.complete c = Ok (CSVRange.nextByte (CSVCache.serial c) =? CSVCache.byteLength c) /\
  (CSVCache.complete c = Ok true ->
   CSVCache.random c = [] /\ CSVRange.firstByte (CSVCache.serial c) = 0 /\
   CSVRange.nextByte (CSVCache.serial c) = CSVCache.byteLength c).
Proof.
  assert (R : reachable (snd (CSVCache.store (Row.mk 5 2 (Some ["b"%string]))
     (CSVCache.mk 12 ["a"%string] 0 (CSVRange.mk 0 0 RowsCache.empty) [] ","%string LF)))).
  { eapply (reachable_store _ (Row.mk 5 2 (Some ["b"%string])) true);
      [apply (reachable_new ["a"%string] (Some 0) 12 ","%string LF); reflexivity
      |vm_compute; reflexivity]. }
  split; [exact R|]. exact (store_coverage_invariant _ R).
Defined.

(** C2 (idempotence of [store], for rows of positive byte count).  In a
    reachable cache, storing again a row of positive byte count that [store] has
    just newly stored returns [false] and leaves the cache unchanged. *)
Theorem store_idempotent c row c' :
  reachable c -> 0 < Row.byteCount row ->
  CSVCache.store row c = (Ok true, c') ->
  CSVCache.store row c' = (Ok false, c').
Proof.
  intros Hr Hpos Hst. pose proof (reachable_inv c Hr) as Hi.
  rewrite store_spec in Hst.
  destruct (store_pure row c) as [[b l]|] eqn:Hp; [|discriminate].
  injection Hst as -> <-.
  destruct (store_pure_inv c row true l Hi Hp) as (Hwf & Hs & x & l' & -> & Hx).
  pose proof Hp as Hp'.
  unfold store_pure, checkNonNegativeInteger in Hp.
  destruct (Row.byteOffset row <? 0) eqn:E1; [discriminate|].
  destruct (Row.byteCount row <? 0) eqn:E2; [discriminate|].
  destruct (byteLength c <? _) eqn:E3; [discriminate|].
  destruct Hi as (_ & Hwf0 & _).
  destruct (walk_contains _ row _ _ _ _ Hwf0 Hp) as (y & Hy & Hc).
  rewrite store_spec. unfold store_pure, checkNonNegativeInteger.
  rewrite E1, E2. destruct (with_ranges_frame c (x :: l')) as (Hbl & _). rewrite Hbl, E3.
  simpl.
  rewrite (walk_dup (byteLength c) row x l' y); auto.
  apply Z.ltb_ge in E1. lia.
Qed.

(** C2 fails for a zero-byte row: the row [(0, 0, ["x"])] is appended to the
    serial range, which ends at its offset, at every call; the second call
    returns [true] again and stores a second copy. *)
Theorem store_idempotent_counterexample :
  ~ (forall c row c', reachable c ->
     CSVCache.store row c = (Ok true, c') -> CSVCache.store row c' = (Ok false, c')).
Proof.
  intros H.
  set (c0 := CSVCache.mk 10 ["a"%string] 0 (CSVRange.mk 0 0 (RowsCache.mk [] 0)) [] ","%string LF).
  set (row := Row.mk 0 0 (Some ["x"%string])).
  set (c1 := CSVCache.mk 10 ["a"%string] 0 (CSVRange.mk 0 0 (RowsCache.mk [["x"%string]] 0)) [] ","%string LF).
  assert (Hr : reachable c0) by (apply (reachable_new ["a"%string] (Some 0) 10 ","%string LF); reflexivity).
  specialize (H c0 row c1 Hr eq_refl).
  vm_compute in H. discriminate.
Qed.

(** C2: a one-row store, repeated. *)
Lemma store_idempotent_witness :
  let c := CSVCache.mk 10 ["a"%string] 0 (CSVRange.mk 0 0 RowsCache.empty) [] ","%string LF in
  let row := Row.mk 0 2 (Some ["x"%string]) in
  let c' := snd (CSVCache.store row c) in
  reachable c /\ 0 < Row.byteCount row /\ CSVCache.store row c = (Ok true, c') /\
  CSVCache.store row c' = (Ok false, c').
Proof.
  intros c row c'.
  assert (R : reachable c) by (apply (reachable_new ["a"%string] (Some 0) 10 ","%string LF); reflexivity).
  assert (Hs : CSVCache.store row c = (Ok true, c')) by (vm_compute; reflexivity).
  split; [exact R|]. split; [simpl; lia|]. split; [exact Hs|].
  apply (store_idempotent c row c' R); [simpl; lia|exact Hs].
Defined.

(** C3 (row-count derivation).  [numRows] is the number of cached rows in the
    exact state (no average), [0] while the committed average is [0] (the
    initial value), and [round((byteLength - headerByteCount) / average)] for a
    non-zero average. *)
Theorem numRows_derivation avg c :
  (avg = None -> Estimator.numRows avg c = Estimator.computeNumCachedRows c) /\
  (forall a, avg = Some a -> (a == 0)%Q -> Estimator.numRows avg c = 0) /\
  (forall a, avg = Some a -> ~ (a == 0)%Q ->
     Some (Estimator.numRows avg c) = SpecSide.claimed_numRows avg c).
Proof.
  split; [|split]; intros; subst; unfold SpecSide.claimed_numRows, Estimator.numRows.
  - reflexivity.
  - apply Qeq_bool_iff in H0. rewrite H0. reflexivity.
  - destruct (Qeq_bool a 0) eqn:E; [apply Qeq_bool_iff in E; contradiction|reflexivity].
Qed.

(** C3: with the initial average [0], [numRows] is [0] whereas
    [(byteLength - headerByteCount) / 0] is [Infinity] in JS. *)
Theorem numRows_derivation_counterexample :
  ~ (forall avg c, reachable c ->
     Some (Estimator.numRows avg c) = SpecSide.claimed_numRows avg c).
Proof.
  intros H.
  specialize (H Estimator.init
    (CSVCache.mk 10 ["a"%string] 0 (CSVRange.mk 0 0 RowsCache.empty) [] ","%string LF)).
  assert (Hr : reachable (CSVCache.mk 10 ["a"%string] 0 (CSVRange.mk 0 0 RowsCache.empty) [] ","%string LF))
    by (apply (reachable_new ["a"%string] (Some 0) 10 ","%string LF); reflexivity).
  specialize (H Hr). vm_compute in H. discriminate.
Qed.

(** C4 (damped refresh).  On a reachable cache: if the cache is complete,
    [refresh] switches to the exact state and reports a change exactly when the
    estimator was not exact yet, and the cache stays complete under further
    stores (so a later [refresh] reports no change); if the cache is incomplete,
    with no cached row it reports no change and keeps the average; otherwise it
    reports a change, and commits [bytes / rows], exactly when the previous
    average was [0] or the relative change exceeds 1%, and keeps the previous
    average (hence [numRows]) when it reports no change. *)
Theorem refresh_damped c avg b avg' :
  reachable c -> Estimator.refresh c avg = (Ok b, avg') ->
  (CSVCache.complete c = Ok true ->
     avg' = None /\ (b = true <-> avg <> None) /\
     (forall row b' c'', CSVCache.store row c = (Ok b', c'') -> CSVCache.complete c'' = Ok true)) /\
  (CSVCache.complete c = Ok false ->
     exists old, avg = Some old /\
     (Estimator.computeNumCachedRows c = 0 -> b = false /\ avg' = avg) /\
     (Estimator.computeNumCachedRows c <> 0 ->
        let average := (inject_Z (Estimator.computeNumCachedBytes c)
                        / inject_Z (Estimator.computeNumCachedRows c))%Q in
        (b = true <-> ((old == 0)%Q \/ (1 # 100 < Qabs (average - old) / old)%Q)) /\
        (b = true -> avg' = Some average) /\
        (b = false -> avg' = avg))).
Proof.
  intros Hr Hf. pose proof (reachable_inv c Hr) as Hi.
  unfold Estimator.refresh, bind, lift, get_state, put_state, ret, throw in Hf.
  split; intros Hc; rewrite Hc in Hf.
  - destruct avg as [old|]; injection Hf as <- <-.
    + split; [reflexivity|]. split; [split; [intros _; discriminate|reflexivity]|].
      intros row b' c'' Hs. exact (proj2 (store_keeps_complete c row b' c'' Hi Hc Hs)).
    + split; [reflexivity|]. split; [split; [discriminate|intros H; contradiction]|].
      intros row b' c'' Hs. exact (proj2 (store_keeps_complete c row b' c'' Hi Hc Hs)).
  - destruct avg as [old|]; [|discriminate]. exists old. split; [reflexivity|].
    split.
    + intros H0. rewrite H0 in Hf. simpl in Hf. injection Hf as <- <-. auto.
    + intros H0. apply Z.eqb_neq in H0. rewrite H0 in Hf. cbv zeta in *.
      set (average := (inject_Z (Estimator.computeNumCachedBytes c)
                        / inject_Z (Estimator.computeNumCachedRows c))%Q) in *.
      destruct (Qeq_bool old 0 || negb (Qle_bool (Qabs (average - old) / old) (1 # 100))) eqn:E;
        injection Hf as <- <-.
      * split; [|split; [reflexivity|discriminate]].
        split; [intros _|reflexivity].
        apply orb_true_iff in E as [E|E]; [left; apply Qeq_bool_iff; exact E|right].
        apply negb_true_iff in E. apply Qnot_le_lt. intros Hle. apply Qle_bool_iff in Hle. congruence.
      * split; [|split; [discriminate|reflexivity]].
        split; [discriminate|]. apply orb_false_iff in E as [E1 E2].
        intros [H|H]; [apply Qeq_bool_iff in H; congruence|].
        apply negb_false_iff in E2. apply Qle_bool_iff in E2. apply Qlt_not_le in H. contradiction.
Qed.

(** C4: with no cached row yet, [refresh] on a fresh estimator (average [0])
    reports no change. *)
Theorem refresh_damped_counterexample :
  ~ (forall c avg b avg', reachable c -> Estimator.refresh c avg = (Ok b, avg') ->
     CSVCache.complete c = Ok false -> avg = Some 0%Q -> b = true).
Proof.
  intros H.
  assert (Hr : reachable (CSVCache.mk 10 ["a"%string] 0 (CSVRange.mk 0 0 RowsCache.empty) [] ","%string LF))
    by (apply (reachable_new ["a"%string] (Some 0) 10 ","%string LF); reflexivity).
  specialize (H _ Estimator.init false Estimator.init Hr eq_refl eq_refl eq_refl).
  discriminate.
Qed.

(** C4: a first [refresh] after two stored rows. *)
Lemma refresh_damped_witness :
  let c := snd (CSVCache.store (Row.mk 5 2 (Some ["b"%string]))
     (snd (CSVCache.store (Row.mk 0 2 (Some ["a"%string]))
     (CSVCache.mk 12 ["a"%string] 0 (CSVRange.mk 0 0 RowsCache.empty) [] ","%string LF)))) in
  reachable c /\ Estimator.refresh c Estimator.init = (Ok true, Some (4 # 2)%Q) /\
  (CSVCache.complete c = Ok true ->
     Some (4 # 2)%Q = None /\ (true = true <-> Estimator.init <> None) /\
     (forall row b' c'', CSVCache.store row c = (Ok b', c'') -> CSVCache.complete c'' = Ok true)) /\
  (CSVCache.complete c = Ok false ->
     exists old, Estimator.init = Some old /\
     (Estimator.computeNumCachedRows c = 0 -> true = false /\ Some (4 # 2)%Q = Estimator.init) /\
     (Estimator.computeNumCachedRows c <> 0 ->
        let average := (inject_Z (Estimator.computeNumCachedBytes c)
                        / inject_Z (Estimator.computeNumCachedRows c))%Q in
        (true = true <-> ((old == 0)%Q \/ (1 # 100 < Qabs (average - old) / old)%Q)) /\
        (true = true -> Some (4 # 2)%Q = Some average) /\
        (true = false -> Some (4 # 2)%Q = Estimator.init))).
Proof.
  intros c.
  assert (R : reachable c).
  { eapply (reachable_store _ (Row.mk 5 2 (Some ["b"%string])) true);
      [eapply (reachable_store _ (Row.mk 0 2 (Some ["a"%string])) true);
        [apply (reachable_new ["a"%string] (Some 0) 12 ","%string LF); reflexivity
        |vm_compute; reflexivity]
      |vm_compute; reflexivity]. }
  assert (Hf : Estimator.refresh c Estimator.init = (Ok true, Some (4 # 2)%Q)) by (vm_compute; reflexivity).
  split; [exact R|]. split; [exact Hf|].
  exact (refresh_damped c Estimator.init true (Some (4 # 2)%Q) R Hf).
Defined.

(** C5 (getStatus classification).  With a non-zero committed average and a
    non-negative row, [getStatus] returns [BeyondEOF] for a row at or after a
    positive [numRows], and otherwise the result of the walk over (left, right)
    range pairs described by the specification; [Unknown] is only returned when
    the average is [0]. *)
Theorem getStatus_classification avg a c row snap :
  avg = Some a -> ~ (a == 0)%Q -> 0 <= row ->
  Estimator.getStatus avg c row snap =
    (if (0 <? Estimator.numRows avg c) && (Estimator.numRows avg c <=? row)
     then Ok (Estimator.BeyondEOF true)
     else SpecSide.classify_status avg a c row snap) /\
  (forall avg' c' row' snap',
     Estimator.getStatus avg' c' row' snap' = Ok Estimator.Unknown ->
     exists a', avg' = Some a' /\ (a' == 0)%Q).
Proof.
  intros Ha Hnz Hrow. split.
  - unfold Estimator.getStatus, checkNonNegativeInteger.
    destruct (row <? 0) eqn:E; [lia|].
    destruct (_ && _); [subst avg; reflexivity|].
    apply getStatus_loop_classify; simpl; auto.
  - intros avg' c' row' snap' H. unfold Estimator.getStatus in H.
    destruct (checkNonNegativeInteger row'); [|discriminate].
    destruct (_ && _); [discriminate|]. eapply getStatus_loop_unknown; exact H.
Qed.

(** C5: the row [6] of a cache of three 2-byte rows at bytes 0, 5 and 10 of a
    12-byte file, average 2: the walk places it in the last range, [getStatus]
    returns [BeyondEOF] since [numRows] is 6. *)
Theorem getStatus_classification_counterexample :
  ~ (forall avg a c row snap, reachable c -> avg = Some a -> ~ (a == 0)%Q -> 0 <= row ->
     Estimator.getStatus avg c row snap = SpecSide.classify_status avg a c row snap).
Proof.
  intros H.
  set (c0 := CSVCache.mk 12 ["a"%string] 0 (CSVRange.mk 0 0 RowsCache.empty) [] ","%string LF).
  set (r1 := Row.mk 0 2 (Some ["a"%string])).
  set (r2 := Row.mk 5 2 (Some ["b"%string])).
  set (r3 := Row.mk 10 2 (Some ["c"%string])).
  assert (R0 : reachable c0) by (apply (reachable_new ["a"%string] (Some 0) 12 ","%string LF); reflexivity).
  assert (R1 : reachable (snd (CSVCache.store r1 c0)))
    by (apply (reachable_store c0 r1 true); [exact R0|vm_compute; reflexivity]).
  assert (R2 : reachable (snd (CSVCache.store r2 (snd (CSVCache.store r1 c0)))))
    by (eapply (reachable_store _ r2 true); [exact R1|vm_compute; reflexivity]).
  assert (R3 : reachable (snd (CSVCache.store r3 (snd (CSVCache.store r2 (snd (CSVCache.store r1 c0)))))))
    by (eapply (reachable_store _ r3 true); [exact R2|vm_compute; reflexivity]).
  assert (Hnz : ~ (2 == 0)%Q) by discriminate.
  specialize (H (Some 2%Q) 2%Q _ 6 false R3 eq_refl Hnz ltac:(lia)).
  vm_compute in H. discriminate.
Qed.

(** C5: a row in the gap between the serial range and a random range. *)
Lemma getStatus_classification_witness :
  let c := snd (CSVCache.store (Row.mk 10 2 (Some ["c"%string]))
     (snd (CSVCache.store (Row.mk 5 2 (Some ["b"%string]))
     (snd (CSVCache.store (Row.mk 0 2 (Some ["a"%string]))
     (CSVCache.mk 12 ["a"%string] 0 (CSVRange.mk 0 0 RowsCache.empty) [] ","%string LF)))))) in
  Some 2%Q = Some 2%Q /\ ~ (2 == 0)%Q /\ 0 <= 3 /\
  (Estimator.getStatus (Some 2%Q) c 3 false =
    (if (0 <? Estimator.numRows (Some 2%Q) c) && (Estimator.numRows (Some 2%Q) c <=? 3)
     then Ok (Estimator.BeyondEOF true)
     else SpecSide.classify_status (Some 2%Q) 2%Q c 3 false) /\
  (forall avg' c' row' snap',
     Estimator.getStatus avg' c' row' snap' = Ok Estimator.Unknown ->
     exists a', avg' = Some a' /\ (a' == 0)%Q)).
Proof.
  intros c.
  assert (Hnz : ~ (2 == 0)%Q) by discriminate.
  split; [reflexivity|]. split; [exact Hnz|]. split; [lia|].
  apply (getStatus_classification (Some 2%Q) 2%Q c 3 false eq_refl Hnz). lia.
Defined.

(** C6 (EOF snapping).  With the snap flag set, a right range that reaches
    [byteLength - 1] gets the first row [numRows - rows] if it holds at least
    one row, and the byte-position estimate otherwise. *)
Theorem eof_snap avg a c left leftNextRow r :
  CSVCache.byteLength c - 1 <= CSVRange.nextByte r ->
  Estimator.rightFirstRow avg a c true left leftNextRow (Some r) =
    if 0 <? Estimator.rangeNumRows r
    then Estimator.numRows avg c - Estimator.rangeNumRows r
    else leftNextRow + Math_round (inject_Z (CSVRange.firstByte r
                                   - CSVRange.nextByte (Estimator.leftRange left)) / a).
Proof.
  intros H. unfold Estimator.rightFirstRow. simpl andb.
  apply Z.leb_le in H. rewrite H. reflexivity.
Qed.

(** C6: a trailing range that reaches the end of the file but holds no row
    (an ignored row) keeps its estimated first row. *)
Theorem eof_snap_counterexample :
  ~ (forall avg a c left leftNextRow r, reachable c -> In r (CSVCache.random c) ->
     CSVCache.byteLength c <= CSVRange.nextByte r ->
     Estimator.rightFirstRow avg a c true left leftNextRow (Some r) =
     Estimator.numRows avg c - Estimator.rangeNumRows r).
Proof.
  intros H.
  set (c0 := CSVCache.mk 12 ["a"%string] 0 (CSVRange.mk 0 0 RowsCache.empty) [] ","%string LF).
  set (r1 := Row.mk 0 2 (Some ["a"%string])).
  set (r2 := Row.mk 10 2 None).
  assert (R0 : reachable c0) by (apply (reachable_new ["a"%string] (Some 0) 12 ","%string LF); reflexivity).
  assert (R1 : reachable (snd (CSVCache.store r1 c0)))
    by (apply (reachable_store c0 r1 true); [exact R0|vm_compute; reflexivity]).
  assert (R2 : reachable (snd (CSVCache.store r2 (snd (CSVCache.store r1 c0)))))
    by (eapply (reachable_store _ r2 true); [exact R1|vm_compute; reflexivity]).
  specialize (H (Some 2%Q) 2%Q _ (Estimator.mkLeft (CSVCache.serial (snd (CSVCache.store r2 (snd (CSVCache.store r1 c0))))) 0 false) 1
    (CSVRange.mk 10 2 RowsCache.empty) R2).
  assert (Hin : In (CSVRange.mk 10 2 RowsCache.empty) (CSVCache.random (snd (CSVCache.store r2 (snd (CSVCache.store r1 c0))))))
    by (vm_compute; left; reflexivity).
  specialize (H Hin ltac:(vm_compute; discriminate)).
  vm_compute in H. discriminate.
Qed.

(** C6: a trailing range with one row. *)
Lemma eof_snap_witness :
  let r := CSVRange.mk 10 2 (RowsCache.mk [["c"%string]] 2) in
  let c := CSVCache.mk 12 ["a"%string] 0 (CSVRange.mk 0 2 (RowsCache.mk [["a"%string]] 2)) [r]
             ","%string LF in
  let left := Estimator.mkLeft (CSVCache.serial c) 0 false in
  CSVCache.byteLength c - 1 <= CSVRange.nextByte r /\
  Estimator.rightFirstRow (Some 2%Q) 2%Q c true left 1 (Some r) =
    (if 0 <? Estimator.rangeNumRows r
     then Estimator.numRows (Some 2%Q) c - Estimator.rangeNumRows r
     else 1 + Math_round (inject_Z (CSVRange.firstByte r
                                   - CSVRange.nextByte (Estimator.leftRange left)) / 2)).
Proof.
  intros r c left.
  assert (H : CSVCache.byteLength c - 1 <= CSVRange.nextByte r) by (vm_compute; discriminate).
  split; [exact H|]. exact (eof_snap (Some 2%Q) 2%Q c left 1 r H).
Defined.

(** C7 (round trip on completion).  For a complete cache reached by
    successful stores that newly stored the rows [W] (offset and cells), after
    a [refresh]: [numRows] is the number of rows of [W], and listing [W] in
    byte-offset order, for every row [r < numRows] and valid column [col],
    [getRowNumber] returns [r] and [getCell] returns the [col]-th cell of the
    [r]-th row, or the empty string when that row has fewer cells. *)
Theorem complete_round_trip c W avg b avg' :
  reachable_with c W -> CSVCache.complete c = Ok true ->
  Estimator.refresh c avg = (Ok b, avg') ->
  exists l, Permutation l W /\ Sorted (fun x y => fst x <= fst y) l /\
    Estimator.numRows avg' c = Z.of_nat (length W) /\
    forall r col, 0 <= r < Estimator.numRows avg' c ->
      0 <= col < Z.of_nat (length (CSVCache.columnNames c)) ->
      Estimator.getRowNumber avg' c r = Some r /\
      Estimator.getCell avg' c r col =
        Ok (Some (Estimator.cell_or_empty (snd (nth (Z.to_nat r) l (0, []))) col)).
Proof.
  intros Hrw Hc Hf.
  pose proof (reachable_inv c (reachable_with_reachable c W Hrw)) as Hi.
  destruct (complete_inv c Hi) as [Hc0 Hrand].
  rewrite Hc0 in Hc. injection Hc as Hc. apply Z.eqb_eq in Hc.
  specialize (Hrand Hc).
  assert (Havg : avg' = None).
  { unfold Estimator.refresh, bind, lift, get_state, put_state, ret in Hf.
    rewrite Hc0, Hc, Z.eqb_refl in Hf. destruct avg; injection Hf as _ <-; reflexivity. }
  subst avg'.
  destruct (reachable_with_entries c W Hrw) as (E & HE & HP).
  unfold CSVCache.ranges in HE. rewrite Hrand in HE.
  apply Forall2_cons_l in HE as (es & E1 & -> & [Hrows Hchain] & HE).
  inversion HE; subst. simpl in HP. rewrite app_nil_r in HP.
  exists (map drop_count es). split; [exact HP|]. split; [exact (proj2 (chain_sorted _ _ _ Hchain))|].
  assert (Hn : Estimator.numRows None c = Z.of_nat (length W)).
  { unfold Estimator.numRows, Estimator.computeNumCachedRows. rewrite Hrand. simpl.
    unfold Estimator.rangeNumRows, RowsCache.numRows.
    rewrite Hrows, length_map, <- (Permutation_length HP), length_map. lia. }
  split; [exact Hn|].
  intros r col Hr Hcol. split.
  - unfold Estimator.getRowNumber. destruct (0 <=? r) eqn:E1; [|lia].
    destruct (r <? _) eqn:E2; [reflexivity|lia].
  - unfold Estimator.getCell, checkNonNegativeInteger.
    destruct (col <? 0) eqn:E1; [lia|].
    destruct (_ <=? col) eqn:E2; [lia|].
    unfold Estimator.getCells, CSVRange.getRow.
    rewrite (js_index_nth _ _ []).
    + f_equal. f_equal. f_equal.
      rewrite Hrows, <- (map_nth snd (map drop_count es) (0%Z, [])), map_map.
      f_equal. apply map_ext. intros [[o n] cs]. reflexivity.
    + rewrite Hn in Hr. rewrite Hrows, length_map.
      rewrite <- (Permutation_length HP), length_map in Hr. lia.
Qed.

(** C7: a 4-byte file of two rows. *)
Lemma complete_round_trip_witness :
  let r1 := Row.mk 0 2 (Some ["a"%string; "b"%string]) in
  let r2 := Row.mk 2 2 (Some ["c"%string]) in
  let c := snd (CSVCache.store r2 (snd (CSVCache.store r1
     (CSVCache.mk 4 ["x"%string; "y"%string] 0 (CSVRange.mk 0 0 RowsCache.empty) [] ","%string LF)))) in
  let W := [(0, ["a"%string; "b"%string]); (2, ["c"%string])] in
  reachable_with c W /\ CSVCache.complete c = Ok true /\
  Estimator.refresh c Estimator.init = (Ok true, None) /\
  exists l, Permutation l W /\ Sorted (fun x y => fst x <= fst y) l /\
    Estimator.numRows None c = Z.of_nat (length W) /\
    forall r col, 0 <= r < Estimator.numRows None c ->
      0 <= col < Z.of_nat (length (CSVCache.columnNames c)) ->
      Estimator.getRowNumber None c r = Some r /\
      Estimator.getCell None c r col =
        Ok (Some (Estimator.cell_or_empty (snd (nth (Z.to_nat r) l (0, []))) col)).
Proof.
  intros r1 r2 c W.
  assert (R : reachable_with c W).
  { change W with (if true then ([] ++ stored_rows r1) ++ stored_rows r2
                   else [] ++ stored_rows r1).
    eapply (reachable_with_store _ _ r2 true);
      [change ([] ++ stored_rows r1) with (if true then [] ++ stored_rows r1 else []);
       eapply (reachable_with_store _ _ r1 true);
        [apply (reachable_with_new ["x"%string; "y"%string] (Some 0) 4 ","%string LF); reflexivity
        |vm_compute; reflexivity]
      |vm_compute; reflexivity]. }
  assert (Hc : CSVCache.complete c = Ok true) by (vm_compute; reflexivity).
  assert (Hf : Estimator.refresh c Estimator.init = (Ok true, None)) by (vm_compute; reflexivity).
  split; [exact R|]. split; [exact Hc|]. split; [exact Hf|].
  exact (complete_round_trip c W Estimator.init true None R Hc Hf).
Defined.

(** C8 (atomicity of [store] on error).  When [store] throws, the cache is
    left exactly as it was. *)
Theorem store_atomic_on_throw c row e c' :
  CSVCache.store row c = (Throw e, c') -> c' = c.
Proof.
  rewrite store_spec. destruct (Walk.store_pure row c) as [[b l]|e0]; intros H; inversion H; reflexivity.
Qed.

(** C8: a row past the end of the file. *)
Lemma store_atomic_on_throw_witness :
  CSVCache.store (Row.mk 0 20 None)
    (CSVCache.mk 10 ["a"%string] 0 (CSVRange.mk 0 0 RowsCache.empty) [] ","%string LF)
  = (Throw EOutOfBounds,
     CSVCache.mk 10 ["a"%string] 0 (CSVRange.mk 0 0 RowsCache.empty) [] ","%string LF) /\
  CSVCache.mk 10 ["a"%string] 0 (CSVRange.mk 0 0 RowsCache.empty) [] ","%string LF =
  CSVCache.mk 10 ["a"%string] 0 (CSVRange.mk 0 0 RowsCache.empty) [] ","%string LF.
Proof.
  split; [reflexivity|].
  apply (store_atomic_on_throw _ (Row.mk 0 20 None) EOutOfBounds). reflexivity.
Defined.

(** C9 (frame of [store]).  Whatever its outcome, [store] leaves
    [byteLength], [columnNames], [headerByteCount], [delimiter] and [newline]
    unchanged: the cache after the call is the cache before it with only its
    serial range and its random range list replaced. *)
Theorem store_frame c row :
  let c' := snd (CSVCache.store row c) in
  CSVCache.byteLength c' = CSVCache.byteLength c /\
  CSVCache.columnNames c' = CSVCache.columnNames c /\
  CSVCache.headerByteCount c' = CSVCache.headerByteCount c /\
  CSVCache.delimiter c' = CSVCache.delimiter c /\
  CSVCache.newline c' = CSVCache.newline c /\
  c' = CSVCache.set_random (CSVCache.set_serial c (CSVCache.serial c')) (CSVCache.random c').
Proof.
  cbv zeta. rewrite store_spec.
  destruct (Walk.store_pure row c) as [[b l]|e]; simpl.
  - destruct c, l; repeat split.
  - destruct c; repeat split.
Qed.

(** C10 (fresh estimator).  Before any [refresh], the estimator reports 0
    rows, as an estimate, whatever the cache. *)
Theorem fresh_estimator c :
  Estimator.numRows Estimator.init c = 0 /\
  Estimator.isNumRowsEstimated Estimator.init = true.
Proof. split; reflexivity. Qed.

End Claims.

(** * Further properties of the code *)

(** ** Helper lemmas *)
Module ExtraProofs.
Import StoreProofs EstimatorProofs CSVCache Walk.

Ltac split_place Hp :=
  repeat match type of Hp with
  | context [if ?x then _ else _] => destruct x
  | context [match ?x with Ok _ => _ | Throw _ => _ end] => destruct x
  | context [match ?x with Some _ => _ | None => _ end] => destruct x
  end.

Lemma place_cons row left right rest b l :
  Walk.place row left right rest = Ok (b, l) -> l <> [].
Proof.
  unfold Walk.place. intros Hp. split_place Hp; try discriminate;
    injection Hp as <- <-; discriminate.
Qed.

Lemma walk_cons row left rest b l :
  Walk.walk row left rest = Ok (b, l) -> l <> [].
Proof.
  destruct rest as [|r rest]; cbn [Walk.walk]; intros Hw.
  - destruct (_ <? _); [discriminate|]. destruct (_ <? _).
    + destruct (_ <? _); [discriminate|]. injection Hw as <- <-. discriminate.
    + eapply place_cons; exact Hw.
  - destruct (_ <? _); [discriminate|]. destruct (_ <? _).
    + destruct (_ <? _); [discriminate|]. injection Hw as <- <-. discriminate.
    + destruct (_ <=? _).
      * destruct (Walk.walk _ _ _) as [[b' l']|]; [|discriminate]. injection Hw as <- <-. discriminate.
      * eapply place_cons; exact Hw.
Qed.

Lemma fold_left_sum f l acc :
  fold_left (fun sum r => sum + f r) l acc = acc + sum_over f l.
Proof.
  revert acc. induction l as [|x l IH]; intros acc; simpl; [lia|].
  rewrite IH. lia.
Qed.

Section Measure.
Variable m : CSVRange.t -> Z.
Variable d : Row.t -> Z.
Hypothesis m_append : forall row r r', Walk.pure_append row r = Ok r' -> m r' = m r + d row.
Hypothesis m_prepend : forall row r r', Walk.pure_prepend row r = Ok r' -> m r' = m r + d row.
Hypothesis m_merge : forall f r r', Walk.pure_merge f r = Ok r' -> m r' = m r + m f.
Hypothesis m_fresh : forall off, m (CSVRange.mk off 0 RowsCache.empty) = 0.

Lemma place_measure row left right rest b l :
  Walk.place row left right rest = Ok (b, l) ->
  b = true /\ sum_over m l = sum_over m (left :: Walk.opt_list right ++ rest) + d row.
Proof.
  unfold Walk.place. intros Hp.
  destruct (ends_after_start _ right); [discriminate|].
  destruct (Row.byteOffset row =? CSVRange.nextByte left).
  - destruct (Walk.pure_append row left) as [left'|] eqn:Ha; [|discriminate].
    apply m_append in Ha.
    destruct right as [r|].
    + destruct (CSVRange.nextByte left' =? CSVRange.firstByte r).
      * destruct (Walk.pure_merge r left') as [mm|] eqn:Hm; [|discriminate].
        apply m_merge in Hm. injection Hp as <- <-. split; [reflexivity|].
        unfold sum_over; simpl. lia.
      * injection Hp as <- <-. split; [reflexivity|]. unfold sum_over; simpl. lia.
    + injection Hp as <- <-. split; [reflexivity|]. unfold sum_over; simpl. lia.
  - destruct right as [r|].
    + destruct (_ =? CSVRange.firstByte r).
      * destruct (Walk.pure_prepend row r) as [r'|] eqn:Hq; [|discriminate].
        apply m_prepend in Hq. injection Hp as <- <-. split; [reflexivity|].
        unfold sum_over; simpl. lia.
      * destruct (CSVRange.new _) as [nr|] eqn:Hn; [|discriminate].
        unfold CSVRange.new, checkNonNegativeInteger in Hn.
        destruct (_ <? 0); [discriminate|]. injection Hn as <-.
        destruct (Walk.pure_append row _) as [nr'|] eqn:Ha; [|discriminate].
        apply m_append in Ha. rewrite m_fresh in Ha. injection Hp as <- <-.
        split; [reflexivity|]. unfold sum_over; simpl. lia.
    + destruct (CSVRange.new _) as [nr|] eqn:Hn; [|discriminate].
      unfold CSVRange.new, checkNonNegativeInteger in Hn.
      destruct (_ <? 0); [discriminate|]. injection Hn as <-.
      destruct (Walk.pure_append row _) as [nr'|] eqn:Ha; [|discriminate].
      apply m_append in Ha. rewrite m_fresh in Ha. injection Hp as <- <-.
      split; [reflexivity|]. unfold sum_over; simpl. lia.
Qed.

Lemma walk_measure row left rest b l :
  Walk.walk row left rest = Ok (b, l) ->
  sum_over m l = sum_over m (left :: rest) + (if b then d row else 0).
Proof.
  revert left b l. induction rest as [|r rest IH]; intros left b l Hw; cbn [Walk.walk] in Hw.
  - destruct (_ <? CSVRange.firstByte left); [discriminate|].
    destruct (_ <? CSVRange.nextByte left).
    + destruct (CSVRange.nextByte left <? _); [discriminate|]. injection Hw as <- <-. lia.
    + apply place_measure in Hw as [-> H]. rewrite H. simpl. lia.
  - destruct (_ <? CSVRange.firstByte left); [discriminate|].
    destruct (_ <? CSVRange.nextByte left).
    + destruct (CSVRange.nextByte left <? _); [discriminate|]. injection Hw as <- <-. lia.
    + destruct (CSVRange.firstByte r <=? _).
      * destruct (Walk.walk row r rest) as [[b' l']|] eqn:Hw'; [|discriminate].
        injection Hw as <- <-. apply IH in Hw'.
        unfold sum_over in *; simpl in *. lia.
      * apply place_measure in Hw as [-> H]. rewrite H. simpl. lia.
Qed.

Lemma store_measure row c b c' :
  CSVCache.store row c = (Ok b, c') ->
  sum_over m (ranges c') = sum_over m (ranges c) + (if b then d row else 0).
Proof.
  rewrite store_spec. destruct (Walk.store_pure row c) as [[b0 l]|] eqn:Hp; [|discriminate].
  intros H; injection H as <- <-.
  unfold Walk.store_pure in Hp.
  destruct (checkNonNegativeInteger _); [|discriminate].
  destruct (checkNonNegativeInteger _); [|discriminate].
  destruct (_ <? _); [discriminate|].
  pose proof (walk_cons _ _ _ _ _ Hp) as Hl.
  rewrite ranges_with_ranges by exact Hl.
  apply walk_measure in Hp. exact Hp.
Qed.
End Measure.

Lemma pure_append_bytes row r r' :
  Walk.pure_append row r = Ok r' ->
  RowsCache.byteCount (CSVRange.rowsCache r') =
  RowsCache.byteCount (CSVRange.rowsCache r) + stored_bytes row.
Proof.
  unfold Walk.pure_append, run_fresh, CSVRange.append, stored_bytes. mon.
  destruct (Row.byteOffset row <? 0); [discriminate|].
  destruct (Row.byteCount row <? 0) eqn:E2; [discriminate|].
  destruct (_ =? _); simpl; [|discriminate].
  destruct (Row.cells row); simpl; try rewrite E2; intros H; inversion H; subst; simpl; lia.
Qed.

Lemma pure_prepend_bytes row r r' :
  Walk.pure_prepend row r = Ok r' ->
  RowsCache.byteCount (CSVRange.rowsCache r') =
  RowsCache.byteCount (CSVRange.rowsCache r) + stored_bytes row.
Proof.
  unfold Walk.pure_prepend, run_fresh, CSVRange.prepend, stored_bytes. mon.
  destruct (Row.byteOffset row <? 0); [discriminate|].
  destruct (Row.byteCount row <? 0) eqn:E2; [discriminate|].
  destruct (_ =? _); simpl; [|discriminate].
  destruct (Row.cells row); simpl; try rewrite E2; intros H; inversion H; subst; simpl; lia.
Qed.

Lemma pure_merge_bytes f r r' :
  Walk.pure_merge f r = Ok r' ->
  RowsCache.byteCount (CSVRange.rowsCache r') =
  RowsCache.byteCount (CSVRange.rowsCache r) + RowsCache.byteCount (CSVRange.rowsCache f).
Proof.
  unfold Walk.pure_merge, run_fresh, CSVRange.merge. mon.
  destruct (_ =? _); simpl; [|discriminate].
  intros H; inversion H; subst; simpl; lia.
Qed.

Lemma numCachedRows_sum c :
  Estimator.computeNumCachedRows c = sum_over Estimator.rangeNumRows (ranges c).
Proof. unfold Estimator.computeNumCachedRows. rewrite fold_left_sum. reflexivity. Qed.

Lemma numCachedBytes_sum c :
  Estimator.computeNumCachedBytes c =
  sum_over (fun r => RowsCache.byteCount (CSVRange.rowsCache r)) (ranges c).
Proof.
  unfold Estimator.computeNumCachedBytes.
  rewrite (fold_left_sum (fun r => RowsCache.byteCount (CSVRange.rowsCache r))). reflexivity.
Qed.

Lemma rows_append row r r' :
  Walk.pure_append row r = Ok r' ->
  Estimator.rangeNumRows r' = Estimator.rangeNumRows r + Z.of_nat (length (cells_list (Row.cells row))).
Proof.
  intros H. apply pure_append_spec in H as (_ & _ & _ & _ & _ & H).
  unfold Estimator.rangeNumRows, RowsCache.numRows. rewrite H, length_app. lia.
Qed.

Lemma rows_prepend row r r' :
  Walk.pure_prepend row r = Ok r' ->
  Estimator.rangeNumRows r' = Estimator.rangeNumRows r + Z.of_nat (length (cells_list (Row.cells row))).
Proof.
  intros H. apply pure_prepend_spec in H as (_ & _ & _ & _ & _ & H).
  unfold Estimator.rangeNumRows, RowsCache.numRows. rewrite H, length_app. lia.
Qed.

Lemma rows_merge f r r' :
  Walk.pure_merge f r = Ok r' ->
  Estimator.rangeNumRows r' = Estimator.rangeNumRows r + Estimator.rangeNumRows f.
Proof.
  intros H. apply pure_merge_spec in H as (_ & _ & _ & H).
  unfold Estimator.rangeNumRows, RowsCache.numRows. rewrite H, length_app. lia.
Qed.

Lemma store_counts row c b c' :
  CSVCache.store row c = (Ok b, c') ->
  Estimator.computeNumCachedRows c' = Estimator.computeNumCachedRows c +
    (if b then Z.of_nat (length (cells_list (Row.cells row))) else 0) /\
  Estimator.computeNumCachedBytes c' = Estimator.computeNumCachedBytes c +
    (if b then stored_bytes row else 0).
Proof.
  intros Hs. rewrite !numCachedRows_sum, !numCachedBytes_sum. split.
  - apply (store_measure Estimator.rangeNumRows (fun row => Z.of_nat (length (cells_list (Row.cells row)))));
      auto using rows_append, rows_prepend, rows_merge.
  - apply (store_measure _ stored_bytes); auto using pure_append_bytes, pure_prepend_bytes, pure_merge_bytes.
Qed.


Lemma pure_append_ok row r :
  0 <= Row.byteOffset row -> 0 <= Row.byteCount row -> Row.byteOffset row = CSVRange.nextByte r ->
  exists r', Walk.pure_append row r = Ok r'.
Proof.
  intros H1 H2 H3. destruct (append_ok row r H1 H2 H3) as [r' Hr].
  exists r'. unfold Walk.pure_append, run_fresh. rewrite Hr. reflexivity.
Qed.

Lemma pure_prepend_ok row r :
  0 <= Row.byteOffset row -> 0 <= Row.byteCount row ->
  Row.byteOffset row + Row.byteCount row = CSVRange.firstByte r ->
  exists r', Walk.pure_prepend row r = Ok r'.
Proof.
  intros H1 H2 H3. destruct (prepend_ok row r H1 H2 H3) as [r' Hr].
  exists r'. unfold Walk.pure_prepend, run_fresh. rewrite Hr. reflexivity.
Qed.

Lemma pure_merge_ok f r :
  CSVRange.nextByte r = CSVRange.firstByte f -> exists r', Walk.pure_merge f r = Ok r'.
Proof.
  intros H. destruct (merge_ok f r H) as [r' Hr].
  exists r'. unfold Walk.pure_merge, run_fresh. rewrite Hr. reflexivity.
Qed.

(** [place] only throws when the row runs into the right range. *)
Lemma place_throw row left right rest e :
  0 <= Row.byteOffset row -> 0 <= Row.byteCount row ->
  CSVRange.nextByte left <= Row.byteOffset row ->
  (forall r, right = Some r -> Row.byteOffset row < CSVRange.firstByte r) ->
  Walk.place row left right rest = Throw e ->
  e = ELastBytesCached /\ exists r, right = Some r /\
    CSVRange.firstByte r < Row.byteOffset row + Row.byteCount row.
Proof.
  intros H1 H2 H3 Hr Hp. unfold Walk.place in Hp.
  destruct (ends_after_start _ right) eqn:E4.
  { injection Hp as <-. split; [reflexivity|]. destruct right as [r|]; [|discriminate].
    exists r. split; [reflexivity|]. simpl in E4. lia. }
  exfalso.
  destruct (Row.byteOffset row =? CSVRange.nextByte left) eqn:E5.
  - apply Z.eqb_eq in E5.
    destruct (pure_append_ok row left H1 H2 E5) as [left' Ha]. rewrite Ha in Hp.
    pose proof (pure_append_spec _ _ _ Ha) as (Ha1 & Ha2 & _).
    destruct right as [r|]; [|discriminate].
    destruct (CSVRange.nextByte left' =? CSVRange.firstByte r) eqn:E6; [|discriminate].
    apply Z.eqb_eq in E6. destruct (pure_merge_ok r left' E6) as [mm Hm].
    rewrite Hm in Hp. discriminate.
  - assert (Hn : CSVRange.new (Row.byteOffset row) = Ok (CSVRange.mk (Row.byteOffset row) 0 RowsCache.empty)).
    { unfold CSVRange.new, checkNonNegativeInteger. destruct (_ <? 0) eqn:E; [lia|reflexivity]. }
    destruct (pure_append_ok row (CSVRange.mk (Row.byteOffset row) 0 RowsCache.empty)) as [nr' Ha];
      [exact H1|exact H2|unfold CSVRange.nextByte; simpl; lia|].
    destruct right as [r|].
    + destruct (_ =? CSVRange.firstByte r) eqn:E6.
      * apply Z.eqb_eq in E6. destruct (pure_prepend_ok row r H1 H2 E6) as [r' Hq].
        rewrite Hq in Hp. discriminate.
      * rewrite Hn, Ha in Hp. discriminate.
    + rewrite Hn, Ha in Hp. discriminate.
Qed.

Lemma walk_throw bl row left rest e :
  Forall (range_wf bl) (left :: rest) ->
  0 <= Row.byteOffset row -> 0 <= Row.byteCount row ->
  CSVRange.firstByte left <= Row.byteOffset row ->
  Walk.walk row left rest = Throw e ->
  (e = EFirstBytesCached \/ e = ELastBytesCached) /\
  exists x, In x (left :: rest) /\ partial_overlap row x.
Proof.
  revert left. induction rest as [|r rest IH]; intros left Hwf H1 H2 Hl Hw; cbn [Walk.walk] in Hw.
  all: destruct (Row.byteOffset row <? CSVRange.firstByte left) eqn:E1; [apply Z.ltb_lt in E1; lia|].
  all: apply Z.ltb_ge in E1; inv_lists.
  all: destruct (Row.byteOffset row <? CSVRange.nextByte left) eqn:E2.
  1,3: destruct (CSVRange.nextByte left <? _) eqn:E3; [|discriminate];
       injection Hw as <-; split; [left; reflexivity|];
       exists left; split; [left; reflexivity|];
       apply Z.ltb_lt in E2; apply Z.ltb_lt in E3;
       unfold partial_overlap, contains, range_wf, CSVRange.nextByte in *; lia.
  - apply place_throw in Hw as [-> (r & Hr & _)]; [discriminate|lia|lia|apply Z.ltb_ge in E2; lia|discriminate].
  - destruct (CSVRange.firstByte r <=? Row.byteOffset row) eqn:E3.
    + destruct (Walk.walk row r rest) as [[b' l']|e'] eqn:Hw'; [discriminate|].
      injection Hw as <-. apply Z.leb_le in E3.
      destruct (IH r) as [He (x & Hx & Ho)]; [constructor; assumption|lia|lia|lia|exact Hw'|].
      split; [exact He|]. exists x. split; [right; exact Hx|exact Ho].
    + apply Z.leb_gt in E3.
      apply place_throw in Hw as [-> (r' & Hr' & Hlt)];
        [|lia|lia|apply Z.ltb_ge in E2; lia|intros r0 Hr0; injection Hr0 as <-; lia].
      injection Hr' as <-. split; [right; reflexivity|].
      exists r. split; [right; left; reflexivity|].
      unfold partial_overlap, contains, range_wf, CSVRange.nextByte in *; lia.
Qed.

(** A successful scan means the row meets no range partially. *)
Lemma walk_ok_no_overlap bl row left rest b l :
  Forall (range_wf bl) (left :: rest) -> Sorted before (left :: rest) ->
  CSVRange.firstByte left <= Row.byteOffset row -> 0 <= Row.byteCount row ->
  Walk.walk row left rest = Ok (b, l) ->
  forall x, In x (left :: rest) -> ~ partial_overlap row x.
Proof.
  revert left b l. induction rest as [|r rest IH]; intros left b l Hwf Hs Hl H2 Hw x Hx Ho;
    cbn [Walk.walk] in Hw; unfold partial_overlap, contains in Ho.
  all: destruct (Row.byteOffset row <? CSVRange.firstByte left) eqn:E1; [discriminate|].
  - destruct Hx as [<-|[]].
    destruct (Row.byteOffset row <? CSVRange.nextByte left) eqn:E2.
    + destruct (CSVRange.nextByte left <? _) eqn:E3; [discriminate|].
      apply Z.ltb_ge in E3. lia.
    + apply Z.ltb_ge in E2. lia.
  - pose proof (sorted_before_forall bl left (r :: rest) (Forall_inv_tail Hwf) Hs) as Hb.
    rewrite Forall_forall in Hb.
    destruct (Row.byteOffset row <? CSVRange.nextByte left) eqn:E2.
    + destruct (CSVRange.nextByte left <? _) eqn:E3; [discriminate|].
      apply Z.ltb_lt in E2. apply Z.ltb_ge in E3.
      destruct Hx as [<-|Hx]; [lia|]. specialize (Hb x Hx). unfold before in Hb. lia.
    + apply Z.ltb_ge in E2.
      destruct Hx as [<-|Hx]; [lia|].
      destruct (CSVRange.firstByte r <=? Row.byteOffset row) eqn:E3.
      * destruct (Walk.walk row r rest) as [[b' l']|] eqn:Hw'; [|discriminate].
        apply Z.leb_le in E3.
        eapply (IH r b' l'); [exact (Forall_inv_tail Hwf)|exact (proj1 (Sorted_inv Hs))|lia|lia|exact Hw'|exact Hx|].
        unfold partial_overlap, contains. lia.
      * apply Z.leb_gt in E3. unfold Walk.place in Hw.
        destruct (ends_after_start _ (Some r)) eqn:E4; [discriminate|].
        simpl in E4. apply Z.ltb_ge in E4.
        assert (Hfx : CSVRange.firstByte r <= CSVRange.firstByte x).
        { destruct Hx as [<-|Hx]; [lia|].
          pose proof (sorted_before_forall bl r rest (Forall_inv_tail (Forall_inv_tail Hwf))
                        (proj1 (Sorted_inv Hs))) as Hb'.
          rewrite Forall_forall in Hb'. specialize (Hb' x Hx).
          pose proof (Forall_inv (Forall_inv_tail Hwf)) as Hr.
          unfold before, range_wf, CSVRange.nextByte in *. lia. }
        lia.
Qed.

Lemma walk_false row left rest l :
  Walk.walk row left rest = Ok (false, l) -> l = left :: rest.
Proof.
  revert left l. induction rest as [|r rest IH]; intros left l Hw; cbn [Walk.walk] in Hw.
  - destruct (_ <? _); [discriminate|]. destruct (_ <? _).
    + destruct (_ <? _); [discriminate|]. now injection Hw as <-.
    + apply place_measure with (m := fun _ => 0) (d := fun _ => 0) in Hw as [Hb _];
        [discriminate|auto..].
  - destruct (_ <? _); [discriminate|]. destruct (_ <? _).
    + destruct (_ <? _); [discriminate|]. now injection Hw as <-.
    + destruct (_ <=? _).
      * destruct (Walk.walk row r rest) as [[b' l']|] eqn:Hw'; [|discriminate].
        injection Hw as -> <-. rewrite (IH r l' Hw'). reflexivity.
      * apply place_measure with (m := fun _ => 0) (d := fun _ => 0) in Hw as [Hb _];
          [discriminate|auto..].
Qed.

Lemma store_false_same row c c' :
  CSVCache.store row c = (Ok false, c') -> c' = c.
Proof.
  rewrite store_spec. destruct (Walk.store_pure row c) as [[b0 l]|] eqn:Hp; [|discriminate].
  intros H; injection H as -> <-.
  unfold Walk.store_pure in Hp.
  destruct (checkNonNegativeInteger _); [|discriminate].
  destruct (checkNonNegativeInteger _); [|discriminate].
  destruct (_ <? _); [discriminate|].
  apply walk_false in Hp. rewrite Hp. apply with_ranges_ranges.
Qed.


Lemma store_frame_fields row c r c' :
  CSVCache.store row c = (r, c') ->
  byteLength c' = byteLength c /\ headerByteCount c' = headerByteCount c /\
  columnNames c' = columnNames c.
Proof.
  rewrite store_spec. destruct (Walk.store_pure row c) as [[b l]|e]; intros H; injection H as _ <-.
  - destruct (with_ranges_frame c l) as (H1 & H2 & H3 & _). auto.
  - auto.
Qed.

Lemma header_bounds c : reachable c -> 0 <= headerByteCount c <= byteLength c.
Proof.
  induction 1 as [cols h bl d nl c Hn | c row b c' _ IH Hs].
  - unfold CSVCache.new, checkNonNegativeInteger in Hn.
    set (h0 := match h with Some h => h | None => 0 end) in Hn.
    destruct (h0 <? 0) eqn:E1; [discriminate|].
    destruct (bl <? 0) eqn:E2; [discriminate|].
    destruct cols; [discriminate|].
    destruct (bl <? h0) eqn:E3; [discriminate|].
    rewrite new_ok in Hn by lia.
    destruct (run_fresh _ _); [|discriminate]. injection Hn as <-. simpl. lia.
  - destruct (store_frame_fields row c _ c' Hs) as (H1 & H2 & _). lia.
Qed.

Ltac refresh_cases H :=
  unfold Estimator.refresh, bind, lift, get_state, put_state, ret, throw in H;
  repeat match type of H with
  | context [match ?x with Ok _ => _ | Throw _ => _ end] => destruct x
  | context [if ?x then _ else _] => destruct x
  | context [match ?x with Some _ => _ | None => _ end] => destruct x
  end.

Lemma refresh_none c avg b :
  Estimator.refresh c avg = (Ok b, None) -> CSVCache.complete c = Ok true.
Proof.
  intros H. destruct (CSVCache.complete c) as [[|]|e] eqn:Hc; [reflexivity| |];
    refresh_cases H; try discriminate; try (rewrite Hc in H; discriminate).
  all: try (injection H as _ H; discriminate).
Qed.

Lemma est_inv avg c :
  est_reachable avg c -> cache_inv c /\ (avg = None -> CSVCache.complete c = Ok true).
Proof.
  induction 1 as [cols h bl d nl c Hn | avg c row b c' _ [Hi IH] Hs | avg c b avg' _ [Hi IH] Hr].
  - split; [eapply new_inv; eauto|discriminate].
  - split; [eapply store_inv; eauto|].
    intros Ha. exact (proj2 (store_keeps_complete c row b c' Hi (IH Ha) Hs)).
  - split; [exact Hi|]. intros ->. eapply refresh_none; eauto.
Qed.

Lemma Qle_bool_no_change x : Qle_bool (Qabs (x - x) / x) (1 # 100) = true.
Proof.
  apply Qle_bool_iff. assert (H : (x - x == 0)%Q) by ring.
  rewrite H. unfold Qdiv. rewrite Qmult_0_l. discriminate.
Qed.

Lemma refresh_twice_gen c avg b avg' x :
  CSVCache.complete c = Ok x ->
  Estimator.refresh c avg = (Ok b, avg') ->
  (forall a, avg' = Some a -> ~ (a == 0)%Q) ->
  Estimator.refresh c avg' = (Ok false, avg').
Proof.
  intros Hc Hr Hnz.
  unfold Estimator.refresh, bind, lift, get_state, put_state, ret, throw in *.
  rewrite Hc in *. destruct x.
  - destruct avg; injection Hr as _ <-; reflexivity.
  - destruct avg as [old|]; [|discriminate].
    destruct (Estimator.computeNumCachedRows c =? 0) eqn:E0.
    + injection Hr as _ <-. reflexivity.
    + set (A := (inject_Z (Estimator.computeNumCachedBytes c) /
                 inject_Z (Estimator.computeNumCachedRows c))%Q) in *.
      destruct (Qeq_bool old 0 || negb (Qle_bool (Qabs (A - old) / old) (1 # 100))) eqn:E1.
      * injection Hr as _ <-.
        assert (HA : Qeq_bool A 0 = false).
        { destruct (Qeq_bool A 0) eqn:E; [|reflexivity].
          apply Qeq_bool_iff in E. exfalso. exact (Hnz A eq_refl E). }
        rewrite HA, Qle_bool_no_change. reflexivity.
      * injection Hr as _ <-. rewrite E1. reflexivity.
Qed.

Lemma getRow_bounds r i cells :
  CSVRange.getRow r i = Some cells ->
  0 <= i < Estimator.rangeNumRows r /\ In cells (RowsCache.rows (CSVRange.rowsCache r)).
Proof.
  unfold CSVRange.getRow, js_index, Estimator.rangeNumRows, RowsCache.numRows.
  destruct (i <? 0) eqn:E; [discriminate|]. apply Z.ltb_ge in E. intros H.
  split; [|eapply nth_error_In; exact H].
  assert (Hn : nth_error (RowsCache.rows (CSVRange.rowsCache r)) (Z.to_nat i) <> None) by congruence.
  apply nth_error_Some in Hn. lia.
Qed.

Lemma getStatus_loop_sound avg c row snap left rights st :
  (exists pre R, ranges c = pre ++ Estimator.leftRange left :: R /\ rights = map Some R ++ [None]) ->
  Estimator.getStatus_loop avg c row snap left rights = Ok st ->
  match st with
  | Estimator.Stored r cells fr _ =>
    In r (ranges c) /\ fr <= row < fr + Estimator.rangeNumRows r /\
    CSVRange.getRow r (row - fr) = Some cells
  | Estimator.Missing lr rr off est =>
    (exists pre R, ranges c = pre ++ lr :: R /\ rr = hd_error R) /\
    (est = false -> off = CSVRange.nextByte lr)
  | _ => True
  end.
Proof.
  revert left. induction rights as [|rr rest IH]; intros left (pre & R & Hc & Hr) Hl; [discriminate|].
  cbn [Estimator.getStatus_loop] in Hl.
  assert (Hrr : rr = hd_error R).
  { destruct R; simpl in Hr; injection Hr as -> _; reflexivity. }
  destruct (row <? _) eqn:E1.
  - destruct (CSVRange.getRow _ _) as [cells|] eqn:Eg; [|discriminate].
    injection Hl as <-. apply getRow_bounds in Eg as Hb.
    split; [rewrite Hc; apply in_or_app; right; left; reflexivity|].
    split; [lia|exact Eg].
  - destruct (row =? _) eqn:E2.
    + injection Hl as <-. split; [exists pre, R; split; assumption|reflexivity].
    + destruct avg as [a|]; [|discriminate].
      destruct (Qeq_bool a 0); [injection Hl as <-; exact I|].
      cbv zeta in Hl.
      destruct (row <? Estimator.rightFirstRow _ _ _ _ _ _ _) eqn:E3.
      * injection Hl as <-. split; [exists pre, R; split; assumption|discriminate].
      * destruct R as [|r R'].
        -- simpl in Hr. injection Hr as -> ->. discriminate.
        -- simpl in Hr. injection Hr as -> ->.
           eapply IH; [|exact Hl].
           exists (pre ++ [Estimator.leftRange left]), R'. split; [|reflexivity].
           rewrite Hc, <- app_assoc. reflexivity.
Qed.

Lemma getStatus_sound avg c row snap st :
  Estimator.getStatus avg c row snap = Ok st ->
  match st with
  | Estimator.Stored r cells fr _ =>
    In r (ranges c) /\ fr <= row < fr + Estimator.rangeNumRows r /\
    CSVRange.getRow r (row - fr) = Some cells
  | Estimator.Missing lr rr off est =>
    (exists pre R, ranges c = pre ++ lr :: R /\ rr = hd_error R) /\
    (est = false -> off = CSVRange.nextByte lr)
  | _ => True
  end.
Proof.
  unfold Estimator.getStatus. destruct (checkNonNegativeInteger row); [|discriminate].
  destruct (_ && _); [intros H; injection H as <-; exact I|].
  apply getStatus_loop_sound. exists [], (random c). split; reflexivity.
Qed.


Lemma store_pure_walk row c :
  0 <= Row.byteOffset row -> 0 <= Row.byteCount row ->
  Row.byteOffset row + Row.byteCount row <= byteLength c ->
  Walk.store_pure row c = Walk.walk row (serial c) (random c).
Proof.
  intros H1 H2 H3. unfold Walk.store_pure, checkNonNegativeInteger.
  destruct (Row.byteOffset row <? 0) eqn:E1; [lia|].
  destruct (Row.byteCount row <? 0) eqn:E2; [lia|].
  destruct (byteLength c <? _) eqn:E3; [lia|reflexivity].
Qed.

Lemma store_ok_walk row c b c' :
  CSVCache.store row c = (Ok b, c') ->
  exists l, Walk.walk row (serial c) (random c) = Ok (b, l) /\ ranges c' = l /\
    0 <= Row.byteOffset row /\ 0 <= Row.byteCount row /\
    Row.byteOffset row + Row.byteCount row <= byteLength c.
Proof.
  rewrite store_spec. destruct (Walk.store_pure row c) as [[b0 l]|] eqn:Hp; [|discriminate].
  intros H; injection H as <- <-.
  unfold Walk.store_pure, checkNonNegativeInteger in Hp.
  destruct (Row.byteOffset row <? 0) eqn:E1; [discriminate|].
  destruct (Row.byteCount row <? 0) eqn:E2; [discriminate|].
  destruct (byteLength c <? _) eqn:E3; [discriminate|].
  exists l. split; [exact Hp|]. split; [apply ranges_with_ranges; eapply walk_cons; exact Hp|].
  lia.
Qed.

Lemma getCells_loop_sound avg c row l i cells :
  Estimator.getCells_loop avg c row l i = Ok (Some cells) ->
  exists x, In x l /\ In cells (RowsCache.rows (CSVRange.rowsCache x)).
Proof.
  revert i. induction l as [|x l IH]; intros i H; cbn [Estimator.getCells_loop] in H; [discriminate|].
  cbv zeta in H.
  match type of H with
  | context [match ?m with Ok _ => _ | Throw _ => _ end] => destruct m as [[efr|]|e]
  end; try discriminate.
  destruct (CSVRange.getRow x (row - efr)) as [cs|] eqn:Eg.
  - injection H as <-. exists x. split; [left; reflexivity|].
    exact (proj2 (getRow_bounds _ _ _ Eg)).
  - destruct (IH (S i) H) as (y & Hy & Hc). exists y. split; [right; exact Hy|exact Hc].
Qed.

Lemma getCells_sound avg c row cells :
  Estimator.getCells avg c row = Ok (Some cells) ->
  exists x, In x (ranges c) /\ In cells (RowsCache.rows (CSVRange.rowsCache x)).
Proof.
  unfold Estimator.getCells. destruct (CSVRange.getRow (serial c) row) as [cs|] eqn:Eg.
  - intros H; injection H as <-. exists (serial c). split; [left; reflexivity|].
    exact (proj2 (getRow_bounds _ _ _ Eg)).
  - intros H. apply getCells_loop_sound in H as (x & Hx & Hc).
    exists x. split; [right; apply in_rev; exact Hx|exact Hc].
Qed.

Lemma getCells_loop_estimated a c row l i :
  exists v, Estimator.getCells_loop (Some a) c row l i = Ok v.
Proof.
  revert i. induction l as [|x l IH]; intros i; cbn [Estimator.getCells_loop]; [eauto|].
  cbv zeta. destruct (_ && _).
  - destruct (CSVRange.getRow _ _); [eauto|apply IH].
  - unfold Estimator.guessRowNumberInRandomRange. destruct (Qeq_bool a 0); [eauto|].
    destruct (CSVRange.getRow _ _); [eauto|apply IH].
Qed.


Lemma new_result cols h bl d nl c :
  CSVCache.new cols h bl d nl = Ok c ->
  let h0 := match h with Some h => h | None => 0 end in
  cols <> [] /\ 0 <= h0 <= bl /\
  c = CSVCache.mk bl cols h0 (CSVRange.mk 0 h0 RowsCache.empty) [] d nl.
Proof.
  cbv zeta. set (h0 := match h with Some h => h | None => 0 end).
  unfold CSVCache.new, checkNonNegativeInteger. fold h0.
  destruct (h0 <? 0) eqn:E1; [discriminate|]. destruct (bl <? 0) eqn:E2; [discriminate|].
  destruct cols as [|col cols]; [discriminate|]. destruct (bl <? h0) eqn:E3; [discriminate|].
  rewrite new_ok by lia. cbv [run_fresh CSVRange.append bind lift get_state put_state ret throw
    checkNonNegativeInteger CSVRange.firstByte CSVRange.byteCount Row.byteOffset Row.byteCount Row.cells].
  rewrite E1. simpl. intros H; injection H as <-.
  split; [discriminate|]. split; [lia|]. f_equal. f_equal. lia.
Qed.

Lemma js_index_app_l {A} (l m : list A) i :
  i < Z.of_nat (length l) -> js_index (l ++ m) i = js_index l i.
Proof.
  intros H. unfold js_index. destruct (i <? 0) eqn:E; [reflexivity|].
  apply Z.ltb_ge in E. apply nth_error_app1. lia.
Qed.

Lemma js_index_app_r {A} (l m : list A) i :
  0 <= i -> js_index (l ++ m) (Z.of_nat (length l) + i) = js_index m i.
Proof.
  intros H. unfold js_index.
  rewrite (proj2 (Z.ltb_ge (Z.of_nat (length l) + i) 0)) by lia.
  rewrite (proj2 (Z.ltb_ge i 0)) by lia.
  replace (Z.to_nat (Z.of_nat (length l) + i)) with (length l + Z.to_nat i)%nat by lia.
  rewrite nth_error_app2 by lia. f_equal. lia.
Qed.

Lemma js_index_cons_succ {A} (x : A) l i :
  0 <= i -> js_index (x :: l) (i + 1) = js_index l i.
Proof.
  intros H. unfold js_index.
  rewrite (proj2 (Z.ltb_ge (i + 1) 0)) by lia. rewrite (proj2 (Z.ltb_ge i 0)) by lia.
  replace (Z.to_nat (i + 1)) with (S (Z.to_nat i)) by lia. reflexivity.
Qed.

Lemma sum_over_sub f g l :
  sum_over (fun r => f r - g r) l = sum_over f l - sum_over g l.
Proof. induction l as [|x l IH]; unfold sum_over in *; simpl; [lia|]. rewrite IH. lia. Qed.

Lemma sum_byteCount_sorted bl x l :
  Forall (range_wf bl) (x :: l) -> Sorted before (x :: l) ->
  sum_over CSVRange.byteCount (x :: l) <= bl - CSVRange.firstByte x.
Proof.
  revert x. induction l as [|y l IH]; intros x Hwf Hs.
  - inversion Hwf as [|? ? Hx _]; subst. unfold range_wf, CSVRange.nextByte in Hx.
    unfold sum_over; simpl. lia.
  - inversion Hwf as [|? ? Hx Hwf']; subst. inversion Hs as [|? ? Hs' Hh]; subst.
    inversion Hh as [|? ? Hb]; subst. specialize (IH y Hwf' Hs').
    unfold before, CSVRange.nextByte in Hb. unfold range_wf in Hx.
    change (sum_over CSVRange.byteCount (x :: y :: l))
      with (CSVRange.byteCount x + sum_over CSVRange.byteCount (y :: l)). lia.
Qed.

Lemma store_unstored row c b c' :
  CSVCache.store row c = (Ok b, c') ->
  sum_over unstored_measure (ranges c') = sum_over unstored_measure (ranges c) +
    (if b then Row.byteCount row - stored_bytes row else 0).
Proof.
  apply (store_measure unstored_measure (fun row => Row.byteCount row - stored_bytes row)).
  - intros row' r r' H. pose proof (pure_append_bytes _ _ _ H) as Hb.
    apply pure_append_spec in H as (H1 & H2 & H3 & _).
    unfold unstored_measure, CSVRange.nextByte in *. lia.
  - intros row' r r' H. pose proof (pure_prepend_bytes _ _ _ H) as Hb.
    apply pure_prepend_spec in H as (H1 & H2 & H3 & _).
    unfold unstored_measure, CSVRange.nextByte in *. lia.
  - intros f r r' H. pose proof (pure_merge_bytes _ _ _ H) as Hb.
    apply pure_merge_spec in H as (H1 & H2 & H3 & _).
    unfold unstored_measure, CSVRange.nextByte in *. lia.
  - intros off. reflexivity.
Qed.

Lemma unstored_header c :
  reachable c ->
  headerByteCount c <= sum_over unstored_measure (ranges c) /\
  0 <= Estimator.computeNumCachedBytes c.
Proof.
  induction 1 as [cols h bl d nl c Hn | c row b c' _ [IH1 IH2] Hs].
  - destruct (new_result cols h bl d nl c Hn) as (_ & _ & ->).
    unfold sum_over, unstored_measure, Estimator.computeNumCachedBytes; simpl. lia.
  - destruct (store_ok_walk row c b c' Hs) as (l & _ & _ & _ & Hcnt & _).
    destruct (store_frame_fields row c _ c' Hs) as (_ & Hh & _).
    destruct (store_counts row c b c' Hs) as [_ Hb].
    rewrite (store_unstored row c b c' Hs), Hb, Hh.
    unfold stored_bytes. destruct b; [|lia]. destruct (Row.cells row); lia.
Qed.

End ExtraProofs.

(** ** Properties *)
Module Extras.
Import StoreProofs EstimatorProofs ExtraProofs CSVCache Walk.

(** [CSVCache] constructor.  A negative header byte count or byte length
    throws, then an empty list of column names, then a header longer than
    the file; otherwise the cache holds an empty serial range covering the
    header and no random range, and it is complete exactly when the header
    fills the file. *)
Theorem new_cache_behaviour cols h bl d nl :
  let h0 := match h with Some h => h | None => 0 end in
  (h0 < 0 \/ bl < 0 -> CSVCache.new cols h bl d nl = Throw ENotNonNegativeInteger) /\
  (0 <= h0 -> 0 <= bl -> cols = [] -> CSVCache.new cols h bl d nl = Throw ENoColumnNames) /\
  (0 <= h0 -> 0 <= bl -> cols <> [] -> bl < h0 ->
   CSVCache.new cols h bl d nl = Throw EHeaderExceedsLength) /\
  (forall c, CSVCache.new cols h bl d nl = Ok c ->
   cols <> [] /\ 0 <= h0 <= bl /\
   c = CSVCache.mk bl cols h0 (CSVRange.mk 0 h0 RowsCache.empty) [] d nl /\
   CSVCache.complete c = Ok (h0 =? bl)).
Proof.
  cbv zeta. set (h0 := match h with Some h => h | None => 0 end).
  unfold CSVCache.new, checkNonNegativeInteger. fold h0.
  split; [|split; [|split]].
  - intros Hn. destruct (h0 <? 0) eqn:E1; [reflexivity|].
    destruct (bl <? 0) eqn:E2; [reflexivity|lia].
  - intros H1 H2 ->. destruct (h0 <? 0) eqn:E1; [lia|]. destruct (bl <? 0) eqn:E2; [lia|reflexivity].
  - intros H1 H2 Hc H3. destruct (h0 <? 0) eqn:E1; [lia|]. destruct (bl <? 0) eqn:E2; [lia|].
    destruct cols; [contradiction|]. destruct (bl <? h0) eqn:E3; [reflexivity|lia].
  - intros c Hn. destruct (new_result cols h bl d nl c Hn) as (Hc & Hb & ->).
    fold h0 in Hb |- *. split; [exact Hc|]. split; [exact Hb|]. split; [reflexivity|].
    unfold CSVCache.complete, CSVRange.nextByte. simpl.
    replace (0 + h0) with h0 by lia. destruct (bl <? h0) eqn:E3; [lia|].
    destruct (h0 =? bl); reflexivity.
Qed.

(** [store] in a reachable cache.  Negative offsets or counts and rows past
    the end of the file throw and leave the cache unchanged; for a valid
    row, [store] throws exactly when the row partially overlaps a cached
    range, and then the error is [EFirstBytesCached] or [ELastBytesCached]. *)
Theorem store_errors c row :
  reachable c ->
  (Row.byteOffset row < 0 \/ Row.byteCount row < 0 ->
   CSVCache.store row c = (Throw ENotNonNegativeInteger, c)) /\
  (0 <= Row.byteOffset row -> 0 <= Row.byteCount row ->
   byteLength c < Row.byteOffset row + Row.byteCount row ->
   CSVCache.store row c = (Throw EOutOfBounds, c)) /\
  (0 <= Row.byteOffset row -> 0 <= Row.byteCount row ->
   Row.byteOffset row + Row.byteCount row <= byteLength c ->
   ((exists e c', CSVCache.store row c = (Throw e, c')) <->
    (exists x, In x (ranges c) /\ partial_overlap row x)) /\
   (forall e c', CSVCache.store row c = (Throw e, c') ->
    e = EFirstBytesCached \/ e = ELastBytesCached)).
Proof.
  intros Hr. pose proof (reachable_inv c Hr) as Hi. destruct Hi as (Hz & Hwf & Hs).
  rewrite !store_spec. unfold CSVCache.ranges in *.
  split; [|split].
  - intros Hn. unfold Walk.store_pure, checkNonNegativeInteger.
    destruct (Row.byteOffset row <? 0) eqn:E1; [reflexivity|].
    destruct (Row.byteCount row <? 0) eqn:E2; [reflexivity|lia].
  - intros H1 H2 H3. unfold Walk.store_pure, checkNonNegativeInteger.
    destruct (Row.byteOffset row <? 0) eqn:E1; [lia|].
    destruct (Row.byteCount row <? 0) eqn:E2; [lia|].
    destruct (byteLength c <? _) eqn:E3; [reflexivity|lia].
  - intros H1 H2 H3. rewrite store_pure_walk by assumption.
    split; [split|].
    + intros (e & c' & He).
      destruct (Walk.walk row (serial c) (random c)) as [[b l]|e'] eqn:Hw; [discriminate|].
      destruct (walk_throw (byteLength c) row (serial c) (random c) _ Hwf H1 H2 ltac:(lia) Hw) as [_ Ho]. exact Ho.
    + intros (x & Hx & Ho).
      destruct (Walk.walk row (serial c) (random c)) as [[b l]|e'] eqn:Hw; [|eauto].
      exfalso. exact (walk_ok_no_overlap (byteLength c) row (serial c) (random c) b l Hwf Hs ltac:(lia) H2 Hw x Hx Ho).
    + intros e c' He.
      destruct (Walk.walk row (serial c) (random c)) as [[b l]|e'] eqn:Hw; [discriminate|].
      injection He as <- _.
      destruct (walk_throw (byteLength c) row (serial c) (random c) _ Hwf H1 H2 ltac:(lia) Hw) as [He _]. exact He.
Qed.

(** [store] in a reachable cache.  After a successful [store], some range
    contains the row; [store] returns [false] only for a row already
    contained in a range, leaving the cache unchanged; and a row of positive
    byte count that is already contained is not stored again. *)
Theorem store_false_iff_covered c row :
  reachable c ->
  (forall b c', CSVCache.store row c = (Ok b, c') ->
   exists x, In x (ranges c') /\ contains row x) /\
  (forall c', CSVCache.store row c = (Ok false, c') ->
   c' = c /\ exists x, In x (ranges c) /\ contains row x) /\
  (0 < Row.byteCount row -> (exists x, In x (ranges c) /\ contains row x) ->
   CSVCache.store row c = (Ok false, c)).
Proof.
  intros Hr. pose proof (reachable_inv c Hr) as Hi. destruct Hi as (Hz & Hwf & Hs).
  split; [|split].
  - intros b c' Hst. destruct (store_ok_walk _ _ _ _ Hst) as (l & Hw & Hl & _).
    rewrite Hl. eapply walk_contains; [exact Hwf|exact Hw].
  - intros c' Hst. pose proof (store_false_same _ _ _ Hst) as ->. split; [reflexivity|].
    destruct (store_ok_walk _ _ _ _ Hst) as (l & Hw & Hl & _).
    rewrite Hl. eapply walk_contains; [exact Hwf|exact Hw].
  - intros Hpos (x & Hx & Hc).
    assert (Hb : range_wf (byteLength c) x) by (rewrite Forall_forall in Hwf; auto).
    unfold contains, range_wf, CSVRange.nextByte in Hc, Hb.
    rewrite store_spec, store_pure_walk by lia.
    rewrite (walk_dup (byteLength c) row (serial c) (random c) x); [|exact Hwf|exact Hs|exact Hx|exact Hc|exact Hpos|lia].
    f_equal. apply with_ranges_ranges.
Qed.

(** [store] and the cached counters.  A successful [store] that returns
    [true] adds the row's cells (one row, or none) to the cached row count
    and its byte count (when it has cells) to the cached byte count; one
    that returns [false] changes neither. *)
Theorem store_updates_counts row c b c' :
  CSVCache.store row c = (Ok b, c') ->
  Estimator.computeNumCachedRows c' = Estimator.computeNumCachedRows c +
    (if b then Z.of_nat (length (cells_list (Row.cells row))) else 0) /\
  Estimator.computeNumCachedBytes c' = Estimator.computeNumCachedBytes c +
    (if b then stored_bytes row else 0).
Proof. apply store_counts. Qed.

(** [#computeNumCachedRows] in a reachable cache is the number of rows
    that successful calls to [store] have newly stored with their cells. *)
Theorem cached_rows_count c W :
  reachable_with c W -> Estimator.computeNumCachedRows c = Z.of_nat (length W).
Proof.
  induction 1 as [cols h bl d nl c Hn | c W row b c' _ IH Hs].
  - destruct (new_result cols h bl d nl c Hn) as (_ & _ & ->). reflexivity.
  - destruct (store_counts row c b c' Hs) as [H _]. rewrite H, IH.
    destruct b; [|lia]. rewrite length_app.
    unfold stored_rows, cells_list. destruct (Row.cells row); simpl; lia.
Qed.


(** [numRows] across [store].  With an exact estimator, it grows by the rows
    the store adds; with an estimate, it does not change, since the byte
    length and header byte count are untouched. *)
Theorem numRows_under_store avg row c b c' :
  CSVCache.store row c = (Ok b, c') ->
  Estimator.numRows avg c' = Estimator.numRows avg c +
    (if Estimator.isNumRowsEstimated avg then 0
     else if b then Z.of_nat (length (cells_list (Row.cells row))) else 0).
Proof.
  intros Hs. destruct avg as [a|]; simpl.
  - destruct (store_frame_fields row c _ c' Hs) as (H1 & H2 & _).
    rewrite H1, H2. lia.
  - destruct (store_counts row c b c' Hs) as [H _]. exact H.
Qed.

(** [refresh] on a reachable cache reaches a fixed point: after one
    [refresh] leaving no zero average, a second [refresh] returns [false]
    and keeps the state. *)
Theorem refresh_settles c avg b avg' :
  reachable c -> Estimator.refresh c avg = (Ok b, avg') ->
  (forall a, avg' = Some a -> ~ (a == 0)%Q) ->
  Estimator.refresh c avg' = (Ok false, avg').
Proof.
  intros Hr. destruct (complete_inv c (reachable_inv c Hr)) as [Hc _].
  eapply refresh_twice_gen; exact Hc.
Qed.

(** An estimator built on a cache and driven by [store] and [refresh]:
    when it is exact, the cache is complete with no random range;
    [refresh] never throws; and [getCell] never throws for a valid
    column. *)
Theorem estimator_never_incoherent avg c :
  est_reachable avg c ->
  (avg = None -> CSVCache.complete c = Ok true /\ random c = []) /\
  (exists b avg', Estimator.refresh c avg = (Ok b, avg')) /\
  (forall row column, 0 <= column < Z.of_nat (length (columnNames c)) ->
   exists v, Estimator.getCell avg c row column = Ok v).
Proof.
  intros He. destruct (est_inv avg c He) as [Hi Hn].
  destruct (complete_inv c Hi) as [Hc Hrand].
  assert (Hnone : avg = None -> CSVCache.complete c = Ok true /\ random c = []).
  { intros Ha. split; [exact (Hn Ha)|]. apply Hrand. rewrite Hc in Hn.
    specialize (Hn Ha). injection Hn as Hn. apply Z.eqb_eq. exact Hn. }
  split; [exact Hnone|split].
  - unfold Estimator.refresh, bind, lift, get_state, put_state, ret, throw. rewrite Hc.
    destruct (CSVRange.nextByte (serial c) =? byteLength c) eqn:E.
    + destruct avg; eauto.
    + destruct avg as [old|]; [|destruct (Hnone eq_refl) as [Hc' _]; rewrite Hc' in Hc; injection Hc as Hc; congruence].
      destruct (_ =? 0); [eauto|]. destruct (_ || _); eauto.
  - intros row column Hcol. unfold Estimator.getCell, checkNonNegativeInteger.
    destruct (column <? 0) eqn:E1; [lia|].
    destruct (_ <=? column) eqn:E2; [lia|].
    assert (Hg : exists v, Estimator.getCells avg c row = Ok v).
    { unfold Estimator.getCells. destruct (CSVRange.getRow _ _); [eauto|].
      destruct avg as [a|].
      - apply getCells_loop_estimated.
      - destruct (Hnone eq_refl) as [_ ->]. simpl. eauto. }
    destruct Hg as [v ->]. destruct v; eauto.
Qed.

(** [getStatus] with an exact estimator on a complete reachable cache: a
    negative row throws, serial rows are stored, rows past them are beyond
    the end; when no row is cached, row 0 is missing at the end of the file
    and any later row throws [EIncoherentComplete]. *)
Theorem getStatus_exact_state c row snap :
  reachable c -> CSVCache.complete c = Ok true ->
  let n := Estimator.rangeNumRows (serial c) in
  Estimator.getStatus None c row snap =
  if row <? 0 then Throw ENotNonNegativeInteger
  else if row <? n then
    Ok (Estimator.Stored (serial c)
          (nth (Z.to_nat row) (RowsCache.rows (CSVRange.rowsCache (serial c))) []) 0 false)
  else if 0 <? n then Ok (Estimator.BeyondEOF false)
  else if row =? 0 then Ok (Estimator.Missing (serial c) None (byteLength c) false)
  else Throw EIncoherentComplete.
Proof.
  intros Hr Hcomp. cbv zeta.
  destruct (complete_inv c (reachable_inv c Hr)) as [Hc Hrand].
  rewrite Hc in Hcomp. injection Hcomp as Hcomp. apply Z.eqb_eq in Hcomp.
  specialize (Hrand Hcomp).
  assert (Hn : Estimator.numRows None c = Estimator.rangeNumRows (serial c)).
  { simpl. unfold Estimator.computeNumCachedRows. rewrite Hrand. simpl. lia. }
  assert (Hpos : 0 <= Estimator.rangeNumRows (serial c)).
  { unfold Estimator.rangeNumRows, RowsCache.numRows. lia. }
  unfold Estimator.getStatus, checkNonNegativeInteger. rewrite Hn, Hrand. simpl.
  destruct (row <? 0) eqn:E0; [reflexivity|]. apply Z.ltb_ge in E0.
  destruct (row <? Estimator.rangeNumRows (serial c)) eqn:E1.
  - apply Z.ltb_lt in E1.
    replace ((0 <? Estimator.rangeNumRows (serial c)) && (Estimator.rangeNumRows (serial c) <=? row))
      with false by (symmetry; apply andb_false_iff; right; apply Z.leb_gt; lia).
    rewrite Z.sub_0_r. unfold CSVRange.getRow.
    rewrite (js_index_nth _ _ []); [reflexivity|].
    unfold Estimator.rangeNumRows, RowsCache.numRows in E1. lia.
  - apply Z.ltb_ge in E1.
    destruct (0 <? Estimator.rangeNumRows (serial c)) eqn:E2.
    + apply Z.leb_le in E1. rewrite E1. reflexivity.
    + apply Z.ltb_ge in E2. simpl.
      replace (row <? Estimator.rangeNumRows (serial c)) with false by (symmetry; apply Z.ltb_ge; lia).
      destruct (row =? 0) eqn:E3.
      * apply Z.eqb_eq in E3. subst row.
        replace (0 =? Estimator.rangeNumRows (serial c)) with true by (symmetry; apply Z.eqb_eq; lia).
        rewrite Hcomp. reflexivity.
      * apply Z.eqb_neq in E3.
        replace (row =? Estimator.rangeNumRows (serial c)) with false by (symmetry; apply Z.eqb_neq; lia).
        reflexivity.
Qed.

(** What [getStatus] returns: the row is non-negative; a stored row lies in
    a range of the cache, inside its row span, with the returned cells; a
    missing row names a cached range and the range after it, and an exact
    byte offset is the end of that range. *)
Theorem getStatus_results avg c row snap st :
  Estimator.getStatus avg c row snap = Ok st ->
  0 <= row /\
  match st with
  | Estimator.Stored r cells fr _ =>
    In r (ranges c) /\ fr <= row < fr + Estimator.rangeNumRows r /\
    CSVRange.getRow r (row - fr) = Some cells
  | Estimator.Missing lr rr off est =>
    (exists pre R, ranges c = pre ++ lr :: R /\ rr = hd_error R) /\
    (est = false -> off = CSVRange.nextByte lr)
  | _ => True
  end.
Proof.
  intros H. split; [|exact (getStatus_sound avg c row snap st H)].
  unfold Estimator.getStatus, checkNonNegativeInteger in H.
  destruct (row <? 0) eqn:E; [discriminate|]. apply Z.ltb_ge in E. exact E.
Qed.

(** [getFirstMissingRow] returns a row at or after [minRow], and an exact
    byte offset it returns is the end of a cached range;
    [getLastMissingRowNumber] returns a row at or before [maxRow]. *)
Theorem missing_row_bounds avg c :
  (forall minRow mr,
   StatusEstimator.getFirstMissingRow avg c minRow = Ok (Some mr) ->
   minRow <= StatusEstimator.missingRow mr /\
   (StatusEstimator.missingIsEstimate mr = false ->
    exists x, In x (ranges c) /\ StatusEstimator.missingByteOffset mr = CSVRange.nextByte x)) /\
  (forall maxRow r,
   StatusEstimator.getLastMissingRowNumber avg c maxRow = Ok (Some r) -> r <= maxRow).
Proof.
  split.
  - intros minRow mr. unfold StatusEstimator.getFirstMissingRow.
    destruct (Estimator.getStatus avg c minRow false) as [st|e] eqn:Hs; [|discriminate].
    apply getStatus_sound in Hs.
    destruct st as [r cells fr est|lr rr off est|est|]; try discriminate.
    + destruct Hs as (Hin & Hb & _). cbv zeta.
      destruct (byteLength c <=? CSVRange.nextByte r); [discriminate|].
      intros H; injection H as <-. cbn [StatusEstimator.missingRow StatusEstimator.missingByteOffset StatusEstimator.missingIsEstimate]. split; [lia|]. intros _. exists r. split; [exact Hin|reflexivity].
    + destruct Hs as ((pre & R & Hr & _) & Hoff).
      intros H; injection H as <-. cbn [StatusEstimator.missingRow StatusEstimator.missingByteOffset StatusEstimator.missingIsEstimate]. split; [lia|]. intros He.
      exists lr. split; [rewrite Hr; apply in_or_app; right; left; reflexivity|auto].
  - intros maxRow r. unfold StatusEstimator.getLastMissingRowNumber.
    destruct (Estimator.getStatus avg c maxRow false) as [st|e] eqn:Hs; [|discriminate].
    apply getStatus_sound in Hs.
    destruct st as [rg cells fr est|lr rr off est|est|]; try discriminate.
    + destruct Hs as (_ & Hb & _).
      destruct (fr =? 0); [discriminate|]. intros H; injection H as <-. lia.
    + intros H; injection H as <-. lia.
Qed.

(** [getCell] of the status-based estimator (src/unnamed/part_002): a
    negative or out-of-range column throws; a row of the serial range gives
    its cell, unless the row count is positive and at most the row, in which
    case it is reported as absent. *)
Theorem status_getCell_behaviour avg c row column :
  (column < 0 -> StatusEstimator.getCell avg c row column = Throw ENotNonNegativeInteger) /\
  (0 <= column -> Z.of_nat (length (columnNames c)) <= column ->
   StatusEstimator.getCell avg c row column = Throw EColumnOutOfBounds) /\
  (0 <= row < Estimator.rangeNumRows (serial c) ->
   0 <= column < Z.of_nat (length (columnNames c)) ->
   StatusEstimator.getCell avg c row column =
   if (0 <? Estimator.numRows avg c) && (Estimator.numRows avg c <=? row) then Ok None
   else Ok (Some (Estimator.cell_or_empty
                    (nth (Z.to_nat row) (RowsCache.rows (CSVRange.rowsCache (serial c))) [])
                    column))).
Proof.
  unfold StatusEstimator.getCell, checkNonNegativeInteger.
  split; [intros H; rewrite (proj2 (Z.ltb_lt _ _) H); reflexivity|].
  split; [intros H1 H2; rewrite (proj2 (Z.ltb_ge _ _) H1), (proj2 (Z.leb_le _ _) H2); reflexivity|].
  intros Hr Hc. rewrite (proj2 (Z.ltb_ge _ _) (proj1 Hc)), (proj2 (Z.leb_gt _ _) (proj2 Hc)).
  unfold Estimator.getStatus, checkNonNegativeInteger.
  rewrite (proj2 (Z.ltb_ge _ _) (proj1 Hr)).
  destruct (_ && _); [reflexivity|].
  destruct (map Some (random c) ++ [None]) as [|x rest] eqn:El;
    [destruct (random c); discriminate|].
  cbn [Estimator.getStatus_loop Estimator.firstRow Estimator.leftRange Estimator.leftIsEstimate].
  rewrite Z.add_0_l, (proj2 (Z.ltb_lt _ _) (proj2 Hr)), Z.sub_0_r.
  unfold CSVRange.getRow. rewrite (js_index_nth _ _ []); [reflexivity|].
  unfold Estimator.rangeNumRows, RowsCache.numRows in Hr. lia.
Qed.

(** [getCell] (src/cache.ts): a negative or out-of-range column throws; a
    row of the serial range gives its cell (or the empty string for a
    missing column), whatever the average row byte count. *)
Theorem getCell_behaviour avg c row column :
  (column < 0 -> Estimator.getCell avg c row column = Throw ENotNonNegativeInteger) /\
  (0 <= column -> Z.of_nat (length (columnNames c)) <= column ->
   Estimator.getCell avg c row column = Throw EColumnOutOfBounds) /\
  (0 <= row < Estimator.rangeNumRows (serial c) ->
   0 <= column < Z.of_nat (length (columnNames c)) ->
   Estimator.getCell avg c row column =
   Ok (Some (Estimator.cell_or_empty
               (nth (Z.to_nat row) (RowsCache.rows (CSVRange.rowsCache (serial c))) [])
               column))).
Proof.
  unfold Estimator.getCell, checkNonNegativeInteger.
  split; [intros H; rewrite (proj2 (Z.ltb_lt _ _) H); reflexivity|].
  split; [intros H1 H2; rewrite (proj2 (Z.ltb_ge _ _) H1), (proj2 (Z.leb_le _ _) H2); reflexivity|].
  intros Hr Hc. rewrite (proj2 (Z.ltb_ge _ _) (proj1 Hc)), (proj2 (Z.leb_gt _ _) (proj2 Hc)).
  unfold Estimator.getCells, CSVRange.getRow. rewrite (js_index_nth _ _ []); [reflexivity|].
  unfold Estimator.rangeNumRows, RowsCache.numRows in Hr. lia.
Qed.

(** [getCell] returns the empty string or a cell of a row stored in a range
    of the cache; for a valid column, [isStored] holds exactly when
    [getCell] returns a value. *)
Theorem getCell_sound avg c row column :
  (forall v, Estimator.getCell avg c row column = Ok (Some v) ->
   v = EmptyString \/
   exists x cells, In x (ranges c) /\ In cells (RowsCache.rows (CSVRange.rowsCache x)) /\ In v cells) /\
  (0 <= column < Z.of_nat (length (columnNames c)) ->
   (Estimator.isStored avg c row = Ok true <->
    exists v, Estimator.getCell avg c row column = Ok (Some v))).
Proof.
  unfold Estimator.getCell, Estimator.isStored, checkNonNegativeInteger. split.
  - intros v. destruct (column <? 0); [discriminate|]. destruct (_ <=? column); [discriminate|].
    destruct (Estimator.getCells avg c row) as [[cells|]|e] eqn:Hg; try discriminate.
    intros H; injection H as <-. apply getCells_sound in Hg as (x & Hx & Hc).
    unfold Estimator.cell_or_empty, js_index.
    destruct (column <? 0); [left; reflexivity|].
    destruct (nth_error cells (Z.to_nat column)) as [v|] eqn:Hn; [|left; reflexivity].
    right. exists x, cells. split; [exact Hx|split; [exact Hc|eapply nth_error_In; exact Hn]].
  - intros Hc. rewrite (proj2 (Z.ltb_ge _ _) (proj1 Hc)), (proj2 (Z.leb_gt _ _) (proj2 Hc)).
    destruct (Estimator.getCells avg c row) as [[cells|]|e]; split; intros H; try discriminate; eauto.
    destruct H as [v H]; discriminate.
    destruct H as [v H]; discriminate.
Qed.

(** [guessByteOffset] on a reachable cache: row 0 is at the header byte
    count; any guess lies in [[0, byteLength]], and strictly before the end
    for a row other than 0 in a non-empty file; without a non-zero average,
    rows other than 0 get no guess. *)
Theorem guessByteOffset_bounds avg c row :
  reachable c ->
  (row = 0 -> Estimator.guessByteOffset avg c row = Some (headerByteCount c)) /\
  (forall v, Estimator.guessByteOffset avg c row = Some v ->
   0 <= v <= byteLength c /\ (row <> 0 -> 0 < byteLength c -> v < byteLength c)) /\
  (row <> 0 -> (avg = None \/ exists a, avg = Some a /\ (a == 0)%Q) ->
   Estimator.guessByteOffset avg c row = None).
Proof.
  intros Hr. pose proof (header_bounds c Hr) as Hh. unfold Estimator.guessByteOffset.
  split; [intros ->; reflexivity|]. split.
  - intros v. destruct (row =? 0) eqn:E.
    + intros H; injection H as <-. apply Z.eqb_eq in E. split; [lia|intros Hne; contradiction].
    + destruct avg as [a|]; [|discriminate]. destruct (Qeq_bool a 0); [discriminate|].
      intros H; injection H as <-. generalize (Math_round (inject_Z row * a)); intros m.
      pose proof (Z.le_min_l (byteLength c - 1) (headerByteCount c + m)) as Hm.
      destruct (Z.max_spec 0 (Z.min (byteLength c - 1) (headerByteCount c + m))) as [[H1 ->]|[H1 ->]].
      * split; [lia|intros _ Hb; lia].
      * split; [lia|intros _ Hb; lia].
  - intros Hrow Ha. rewrite (proj2 (Z.eqb_neq _ _) Hrow).
    destruct Ha as [->|(a & -> & Ha)]; [reflexivity|].
    rewrite (proj2 (Qeq_bool_iff a 0) Ha). reflexivity.
Qed.

(** [CSVRange.append]: on an error the range is unchanged and the error is
    a negative argument or a non-contiguous row; on success the range ends
    at the end of the row, its earlier rows are kept and the row's cells
    (if any) come last. *)
Theorem range_append_behaviour row r res r' :
  CSVRange.append row r = (res, r') ->
  (forall e, res = Throw e -> r' = r /\
     (e = ENotNonNegativeInteger \/ e = EAppendNotContiguous)) /\
  (res = Ok tt ->
   Row.byteOffset row = CSVRange.nextByte r /\
   CSVRange.firstByte r' = CSVRange.firstByte r /\
   CSVRange.nextByte r' = Row.byteOffset row + Row.byteCount row /\
   (forall i, i < Estimator.rangeNumRows r -> CSVRange.getRow r' i = CSVRange.getRow r i) /\
   CSVRange.getRow r' (Estimator.rangeNumRows r) = Row.cells row /\
   Estimator.rangeNumRows r' =
     Estimator.rangeNumRows r + Z.of_nat (length (cells_list (Row.cells row)))).
Proof.
  destruct r as [fb bc [rows rbc]], row as [off cnt cells].
  unfold CSVRange.append, CSVRange.on_rowsCache, RowsCache.append, bind, lift, get_state,
    put_state, ret, throw, checkNonNegativeInteger, CSVRange.nextByte,
    Estimator.rangeNumRows, RowsCache.numRows, CSVRange.getRow; simpl.
  destruct (off <? 0) eqn:E1; [intros H; injection H as <- <-; split; [intros e He; injection He as <-; auto|discriminate]|].
  destruct (cnt <? 0) eqn:E2; [intros H; injection H as <- <-; split; [intros e He; injection He as <-; auto|discriminate]|].
  destruct (off =? fb + bc) eqn:E3; simpl;
    [|intros H; injection H as <- <-; split; [intros e He; injection He as <-; auto|discriminate]].
  apply Z.eqb_eq in E3.
  destruct cells as [cs|]; simpl; intros H; injection H as <- <-;
    (split; [intros e He; discriminate|intros _]); simpl.
  all: split; [lia|]; split; [reflexivity|]; split; [lia|].
  - split; [intros i Hi; apply js_index_app_l; exact Hi|].
    split; [rewrite <- (Z.add_0_r (Z.of_nat (length rows))), js_index_app_r by lia; reflexivity|].
    rewrite length_app. simpl. lia.
  - split; [reflexivity|]. split; [|lia].
    unfold js_index. rewrite (proj2 (Z.ltb_ge (Z.of_nat (length rows)) 0)) by lia.
    apply nth_error_None. lia.
Qed.

(** [CSVRange.prepend]: on an error the range is unchanged; on success the
    range starts at the row, ends where it ended, and the row's cells (if
    any) come first, before the earlier rows. *)
Theorem range_prepend_behaviour row r res r' :
  CSVRange.prepend row r = (res, r') ->
  (forall e, res = Throw e -> r' = r /\
     (e = ENotNonNegativeInteger \/ e = EPrependNotContiguous)) /\
  (res = Ok tt ->
   Row.byteOffset row + Row.byteCount row = CSVRange.firstByte r /\
   CSVRange.firstByte r' = Row.byteOffset row /\
   CSVRange.nextByte r' = CSVRange.nextByte r /\
   match Row.cells row with
   | Some cells =>
     CSVRange.getRow r' 0 = Some cells /\
     (forall i, 0 <= i -> CSVRange.getRow r' (i + 1) = CSVRange.getRow r i) /\
     Estimator.rangeNumRows r' = Estimator.rangeNumRows r + 1
   | None => CSVRange.rowsCache r' = CSVRange.rowsCache r
   end).
Proof.
  destruct r as [fb bc [rows rbc]], row as [off cnt cells].
  unfold CSVRange.prepend, CSVRange.on_rowsCache, RowsCache.prepend, bind, lift, get_state,
    put_state, ret, throw, checkNonNegativeInteger, CSVRange.nextByte,
    Estimator.rangeNumRows, RowsCache.numRows, CSVRange.getRow; simpl.
  destruct (off <? 0) eqn:E1; [intros H; injection H as <- <-; split; [intros e He; injection He as <-; auto|discriminate]|].
  destruct (cnt <? 0) eqn:E2; [intros H; injection H as <- <-; split; [intros e He; injection He as <-; auto|discriminate]|].
  destruct (off + cnt =? fb) eqn:E3; simpl;
    [|intros H; injection H as <- <-; split; [intros e He; injection He as <-; auto|discriminate]].
  apply Z.eqb_eq in E3.
  destruct cells as [cs|]; simpl; intros H; injection H as <- <-;
    (split; [intros e He; discriminate|intros _]); simpl.
  all: split; [lia|]; split; [reflexivity|]; split; [lia|].
  - split; [reflexivity|]. split; [intros i Hi; apply js_index_cons_succ; exact Hi|lia].
  - reflexivity.
Qed.

(** [CSVRange.merge]: on an error the range is unchanged; on success it
    spans both ranges, its rows are its own followed by the following
    range's, and the cached byte counts add up. *)
Theorem range_merge_behaviour f r res r' :
  CSVRange.merge f r = (res, r') ->
  (forall e, res = Throw e -> r' = r /\ e = EMergeNotContiguous) /\
  (res = Ok tt ->
   CSVRange.nextByte r = CSVRange.firstByte f /\
   CSVRange.firstByte r' = CSVRange.firstByte r /\
   CSVRange.nextByte r' = CSVRange.nextByte f /\
   (forall i, i < Estimator.rangeNumRows r -> CSVRange.getRow r' i = CSVRange.getRow r i) /\
   (forall i, 0 <= i ->
    CSVRange.getRow r' (Estimator.rangeNumRows r + i) = CSVRange.getRow f i) /\
   Estimator.rangeNumRows r' = Estimator.rangeNumRows r + Estimator.rangeNumRows f /\
   RowsCache.byteCount (CSVRange.rowsCache r') =
     RowsCache.byteCount (CSVRange.rowsCache r) + RowsCache.byteCount (CSVRange.rowsCache f)).
Proof.
  destruct r as [fb bc [rows rbc]], f as [ffb fbc [frows frbc]].
  unfold CSVRange.merge, CSVRange.on_rowsCache, RowsCache.merge, bind, get_state,
    put_state, throw, CSVRange.nextByte,
    Estimator.rangeNumRows, RowsCache.numRows, CSVRange.getRow; simpl.
  destruct (fb + bc =? ffb) eqn:E3; simpl;
    [|intros H; injection H as <- <-; split; [intros e He; injection He as <-; auto|discriminate]].
  apply Z.eqb_eq in E3. intros H; injection H as <- <-.
  split; [intros e He; discriminate|intros _]; simpl.
  split; [lia|]; split; [reflexivity|]; split; [lia|].
  split; [intros i Hi; apply js_index_app_l; exact Hi|].
  split; [intros i Hi; apply js_index_app_r; exact Hi|].
  rewrite length_app. split; [lia|reflexivity].
Qed.

(** [#computeNumCachedBytes] in a reachable cache is non-negative and at
    most the byte length minus the header byte count. *)
Theorem cached_bytes_bound c :
  reachable c ->
  0 <= Estimator.computeNumCachedBytes c <= byteLength c - headerByteCount c.
Proof.
  intros Hr. destruct (unstored_header c Hr) as [H1 H2].
  destruct (reachable_inv c Hr) as (Hz & Hwf & Hs).
  unfold CSVCache.ranges in *.
  pose proof (sum_byteCount_sorted _ _ _ Hwf Hs) as Hb.
  rewrite numCachedBytes_sum in H2 |- *. unfold CSVCache.ranges in *.
  unfold unstored_measure in H1. rewrite sum_over_sub in H1. split; [exact H2|]. lia.
Qed.

Ltac reach :=
  repeat match goal with
  | |- reachable (snd (CSVCache.store ?row ?c)) =>
      apply (reachable_store c row true); [|vm_compute; reflexivity]
  end;
  match goal with
  | |- reachable (CSVCache.mk ?bl ?cols ?h _ _ ?d ?nl) =>
      apply (reachable_new cols (Some h) bl d nl); reflexivity
  end.

(** An instance of [store_errors]. *)
Lemma store_errors_witness :
  let c := snd (CSVCache.store (Row.mk 5 2 (Some ["b"%string]))
     (CSVCache.mk 12 ["a"%string] 0 (CSVRange.mk 0 0 RowsCache.empty) [] ","%string LF)) in
  let row := Row.mk 6 3 (Some ["x"%string]) in
  reachable c /\
  (Row.byteOffset row < 0 \/ Row.byteCount row < 0 ->
   CSVCache.store row c = (Throw ENotNonNegativeInteger, c)) /\
  (0 <= Row.byteOffset row -> 0 <= Row.byteCount row ->
   byteLength c < Row.byteOffset row + Row.byteCount row ->
   CSVCache.store row c = (Throw EOutOfBounds, c)) /\
  (0 <= Row.byteOffset row -> 0 <= Row.byteCount row ->
   Row.byteOffset row + Row.byteCount row <= byteLength c ->
   ((exists e c', CSVCache.store row c = (Throw e, c')) <->
    (exists x, In x (ranges c) /\ partial_overlap row x)) /\
   (forall e c', CSVCache.store row c = (Throw e, c') ->
    e = EFirstBytesCached \/ e = ELastBytesCached)).
Proof. cbv zeta. split; [reach|]. apply store_errors. reach. Defined.

(** An instance of [store_false_iff_covered]. *)
Lemma store_false_iff_covered_witness :
  let c := snd (CSVCache.store (Row.mk 5 2 (Some ["b"%string]))
     (CSVCache.mk 12 ["a"%string] 0 (CSVRange.mk 0 0 RowsCache.empty) [] ","%string LF)) in
  let row := Row.mk 5 2 (Some ["b"%string]) in
  reachable c /\
  (forall b c', CSVCache.store row c = (Ok b, c') ->
   exists x, In x (ranges c') /\ contains row x) /\
  (forall c', CSVCache.store row c = (Ok false, c') ->
   c' = c /\ exists x, In x (ranges c) /\ contains row x) /\
  (0 < Row.byteCount row -> (exists x, In x (ranges c) /\ contains row x) ->
   CSVCache.store row c = (Ok false, c)).
Proof. cbv zeta. split; [reach|]. apply store_false_iff_covered. reach. Defined.

(** An instance of [store_updates_counts]. *)
Lemma store_updates_counts_witness :
  let c := CSVCache.mk 12 ["a"%string] 0 (CSVRange.mk 0 0 RowsCache.empty) [] ","%string LF in
  let row := Row.mk 5 2 (Some ["b"%string]) in
  let c' := CSVCache.mk 12 ["a"%string] 0 (CSVRange.mk 0 0 RowsCache.empty)
              [CSVRange.mk 5 2 (RowsCache.mk [["b"%string]] 2)] ","%string LF in
  CSVCache.store row c = (Ok true, c') /\
  Estimator.computeNumCachedRows c' = Estimator.computeNumCachedRows c +
    Z.of_nat (length (cells_list (Row.cells row))) /\
  Estimator.computeNumCachedBytes c' = Estimator.computeNumCachedBytes c + stored_bytes row.
Proof.
  cbv zeta. assert (H : CSVCache.store (Row.mk 5 2 (Some ["b"%string]))
    (CSVCache.mk 12 ["a"%string] 0 (CSVRange.mk 0 0 RowsCache.empty) [] ","%string LF) =
    (Ok true, CSVCache.mk 12 ["a"%string] 0 (CSVRange.mk 0 0 RowsCache.empty)
              [CSVRange.mk 5 2 (RowsCache.mk [["b"%string]] 2)] ","%string LF))
    by (vm_compute; reflexivity).
  split; [exact H|]. exact (store_updates_counts _ _ _ _ H).
Defined.

(** An instance of [cached_rows_count]. *)
Lemma cached_rows_count_witness :
  let c := snd (CSVCache.store (Row.mk 5 2 (Some ["b"%string]))
     (CSVCache.mk 12 ["a"%string] 0 (CSVRange.mk 0 0 RowsCache.empty) [] ","%string LF)) in
  let W := [(5, ["b"%string])] in
  reachable_with c W /\ Estimator.computeNumCachedRows c = Z.of_nat (length W).
Proof.
  cbv zeta.
  assert (H : reachable_with (snd (CSVCache.store (Row.mk 5 2 (Some ["b"%string]))
     (CSVCache.mk 12 ["a"%string] 0 (CSVRange.mk 0 0 RowsCache.empty) [] ","%string LF)))
     [(5, ["b"%string])]).
  { change [(5, ["b"%string])] with
      (if true then [] ++ stored_rows (Row.mk 5 2 (Some ["b"%string])) else []).
    apply (reachable_with_store
      (CSVCache.mk 12 ["a"%string] 0 (CSVRange.mk 0 0 RowsCache.empty) [] ","%string LF)
      [] (Row.mk 5 2 (Some ["b"%string])) true).
    - apply (reachable_with_new ["a"%string] (Some 0) 12 ","%string LF). reflexivity.
    - vm_compute. reflexivity. }
  split; [exact H|]. exact (cached_rows_count _ _ H).
Defined.

(** An instance of [numRows_under_store]. *)
Lemma numRows_under_store_witness :
  let c := CSVCache.mk 12 ["a"%string] 0 (CSVRange.mk 0 0 RowsCache.empty) [] ","%string LF in
  let row := Row.mk 5 2 (Some ["b"%string]) in
  let c' := CSVCache.mk 12 ["a"%string] 0 (CSVRange.mk 0 0 RowsCache.empty)
              [CSVRange.mk 5 2 (RowsCache.mk [["b"%string]] 2)] ","%string LF in
  CSVCache.store row c = (Ok true, c') /\
  Estimator.numRows None c' = Estimator.numRows None c +
    Z.of_nat (length (cells_list (Row.cells row))) /\
  Estimator.numRows (Some (7 # 2)) c' = Estimator.numRows (Some (7 # 2)) c.
Proof.
  cbv zeta. assert (H : CSVCache.store (Row.mk 5 2 (Some ["b"%string]))
    (CSVCache.mk 12 ["a"%string] 0 (CSVRange.mk 0 0 RowsCache.empty) [] ","%string LF) =
    (Ok true, CSVCache.mk 12 ["a"%string] 0 (CSVRange.mk 0 0 RowsCache.empty)
              [CSVRange.mk 5 2 (RowsCache.mk [["b"%string]] 2)] ","%string LF))
    by (vm_compute; reflexivity).
  split; [exact H|]. split.
  - exact (numRows_under_store None _ _ _ _ H).
  - rewrite (numRows_under_store (Some (7 # 2)) _ _ _ _ H). simpl. lia.
Defined.

(** An instance of [refresh_settles]. *)
Lemma refresh_settles_witness :
  let c := snd (CSVCache.store (Row.mk 5 2 (Some ["b"%string]))
     (CSVCache.mk 12 ["a"%string] 0 (CSVRange.mk 0 0 RowsCache.empty) [] ","%string LF)) in
  reachable c /\ Estimator.refresh c Estimator.init = (Ok true, Some (2 # 1)) /\
  Estimator.refresh c (Some (2 # 1)) = (Ok false, Some (2 # 1)).
Proof.
  cbv zeta.
  assert (R : reachable (snd (CSVCache.store (Row.mk 5 2 (Some ["b"%string]))
     (CSVCache.mk 12 ["a"%string] 0 (CSVRange.mk 0 0 RowsCache.empty) [] ","%string LF))))
    by reach.
  assert (H : Estimator.refresh (snd (CSVCache.store (Row.mk 5 2 (Some ["b"%string]))
     (CSVCache.mk 12 ["a"%string] 0 (CSVRange.mk 0 0 RowsCache.empty) [] ","%string LF)))
     Estimator.init = (Ok true, Some (2 # 1))) by (vm_compute; reflexivity).
  split; [exact R|]. split; [exact H|].
  apply (refresh_settles _ _ _ _ R H).
  intros a Ha Hq. injection Ha as <-. vm_compute in Hq. discriminate.
Defined.

(** An instance of [estimator_never_incoherent]. *)
Lemma estimator_never_incoherent_witness :
  let c := snd (CSVCache.store (Row.mk 5 2 (Some ["b"%string]))
     (CSVCache.mk 12 ["a"%string] 0 (CSVRange.mk 0 0 RowsCache.empty) [] ","%string LF)) in
  est_reachable Estimator.init c /\
  (Estimator.init = None -> CSVCache.complete c = Ok true /\ random c = []) /\
  (exists b avg', Estimator.refresh c Estimator.init = (Ok b, avg')) /\
  (forall row column, 0 <= column < Z.of_nat (length (columnNames c)) ->
   exists v, Estimator.getCell Estimator.init c row column = Ok v).
Proof.
  cbv zeta.
  assert (H : est_reachable Estimator.init (snd (CSVCache.store (Row.mk 5 2 (Some ["b"%string]))
     (CSVCache.mk 12 ["a"%string] 0 (CSVRange.mk 0 0 RowsCache.empty) [] ","%string LF)))).
  { apply (est_reachable_store Estimator.init
      (CSVCache.mk 12 ["a"%string] 0 (CSVRange.mk 0 0 RowsCache.empty) [] ","%string LF)
      (Row.mk 5 2 (Some ["b"%string])) true).
    - apply (est_reachable_new ["a"%string] (Some 0) 12 ","%string LF). reflexivity.
    - vm_compute. reflexivity. }
  split; [exact H|]. exact (estimator_never_incoherent _ _ H).
Defined.

(** An instance of [getStatus_exact_state]. *)
Lemma getStatus_exact_state_witness :
  let c := snd (CSVCache.store (Row.mk 0 12 (Some ["b"%string]))
     (CSVCache.mk 12 ["a"%string] 0 (CSVRange.mk 0 0 RowsCache.empty) [] ","%string LF)) in
  reachable c /\ CSVCache.complete c = Ok true /\
  Estimator.getStatus None c 0 true =
    Ok (Estimator.Stored (serial c) ["b"%string] 0 false) /\
  Estimator.getStatus None c 1 true = Ok (Estimator.BeyondEOF false).
Proof.
  cbv zeta.
  assert (R : reachable (snd (CSVCache.store (Row.mk 0 12 (Some ["b"%string]))
     (CSVCache.mk 12 ["a"%string] 0 (CSVRange.mk 0 0 RowsCache.empty) [] ","%string LF))))
    by reach.
  assert (Hc : CSVCache.complete (snd (CSVCache.store (Row.mk 0 12 (Some ["b"%string]))
     (CSVCache.mk 12 ["a"%string] 0 (CSVRange.mk 0 0 RowsCache.empty) [] ","%string LF)))
     = Ok true) by (vm_compute; reflexivity).
  split; [exact R|]. split; [exact Hc|]. split.
  - rewrite (getStatus_exact_state _ 0 true R Hc). vm_compute. reflexivity.
  - rewrite (getStatus_exact_state _ 1 true R Hc). vm_compute. reflexivity.
Defined.

(** An instance of [getStatus_results]. *)
Lemma getStatus_results_witness :
  let c := snd (CSVCache.store (Row.mk 0 2 (Some ["b"%string]))
     (CSVCache.mk 12 ["a"%string] 0 (CSVRange.mk 0 0 RowsCache.empty) [] ","%string LF)) in
  let r := CSVRange.mk 0 2 (RowsCache.mk [["b"%string]] 2) in
  Estimator.getStatus Estimator.init c 0 false = Ok (Estimator.Stored r ["b"%string] 0 false) /\
  0 <= 0 /\ In r (ranges c) /\ 0 <= 0 < 0 + Estimator.rangeNumRows r /\
  CSVRange.getRow r (0 - 0) = Some ["b"%string].
Proof.
  cbv zeta.
  assert (H : Estimator.getStatus Estimator.init
     (snd (CSVCache.store (Row.mk 0 2 (Some ["b"%string]))
       (CSVCache.mk 12 ["a"%string] 0 (CSVRange.mk 0 0 RowsCache.empty) [] ","%string LF)))
     0 false = Ok (Estimator.Stored (CSVRange.mk 0 2 (RowsCache.mk [["b"%string]] 2))
                     ["b"%string] 0 false)) by (vm_compute; reflexivity).
  split; [exact H|]. exact (getStatus_results _ _ _ _ _ H).
Defined.

(** An instance of [guessByteOffset_bounds]. *)
Lemma guessByteOffset_bounds_witness :
  let c := snd (CSVCache.store (Row.mk 5 2 (Some ["b"%string]))
     (CSVCache.mk 12 ["a"%string] 0 (CSVRange.mk 0 0 RowsCache.empty) [] ","%string LF)) in
  let avg := Some (2 # 1) in
  let row := 3 in
  reachable c /\
  (row = 0 -> Estimator.guessByteOffset avg c row = Some (headerByteCount c)) /\
  (forall v, Estimator.guessByteOffset avg c row = Some v ->
   0 <= v <= byteLength c /\ (row <> 0 -> 0 < byteLength c -> v < byteLength c)) /\
  (row <> 0 -> (avg = None \/ exists a, avg = Some a /\ (a == 0)%Q) ->
   Estimator.guessByteOffset avg c row = None).
Proof. cbv zeta. split; [reach|]. apply guessByteOffset_bounds. reach. Defined.

(** An instance of [range_append_behaviour]. *)
Lemma range_append_behaviour_witness :
  let row := Row.mk 4 2 (Some ["x"%string]) in
  let r := CSVRange.mk 0 4 (RowsCache.mk [["a"%string]] 4) in
  let r' := CSVRange.mk 0 6 (RowsCache.mk [["a"%string]; ["x"%string]] 6) in
  CSVRange.append row r = (Ok tt, r') /\
  CSVRange.getRow r' (Estimator.rangeNumRows r) = Some ["x"%string] /\
  CSVRange.getRow r' 0 = CSVRange.getRow r 0.
Proof.
  cbv zeta.
  assert (H : CSVRange.append (Row.mk 4 2 (Some ["x"%string]))
    (CSVRange.mk 0 4 (RowsCache.mk [["a"%string]] 4)) =
    (Ok tt, CSVRange.mk 0 6 (RowsCache.mk [["a"%string]; ["x"%string]] 6)))
    by (vm_compute; reflexivity).
  destruct (range_append_behaviour _ _ _ _ H) as [_ Hok].
  destruct (Hok eq_refl) as (_ & _ & _ & Hi & Hl & _).
  split; [exact H|]. split; [exact Hl|]. apply Hi. vm_compute. reflexivity.
Defined.

(** An instance of [range_prepend_behaviour]. *)
Lemma range_prepend_behaviour_witness :
  let row := Row.mk 0 2 (Some ["x"%string]) in
  let r := CSVRange.mk 2 3 (RowsCache.mk [["a"%string]] 3) in
  let r' := CSVRange.mk 0 5 (RowsCache.mk [["x"%string]; ["a"%string]] 5) in
  CSVRange.prepend row r = (Ok tt, r') /\
  CSVRange.getRow r' 0 = Some ["x"%string] /\
  CSVRange.getRow r' (0 + 1) = CSVRange.getRow r 0.
Proof.
  cbv zeta.
  assert (H : CSVRange.prepend (Row.mk 0 2 (Some ["x"%string]))
    (CSVRange.mk 2 3 (RowsCache.mk [["a"%string]] 3)) =
    (Ok tt, CSVRange.mk 0 5 (RowsCache.mk [["x"%string]; ["a"%string]] 5)))
    by (vm_compute; reflexivity).
  destruct (range_prepend_behaviour _ _ _ _ H) as [_ Hok].
  destruct (Hok eq_refl) as (_ & _ & _ & H0 & Hs & _).
  split; [exact H|]. split; [exact H0|]. apply Hs. lia.
Defined.

(** An instance of [range_merge_behaviour]. *)
Lemma range_merge_behaviour_witness :
  let f := CSVRange.mk 4 2 (RowsCache.mk [["b"%string]] 2) in
  let r := CSVRange.mk 0 4 (RowsCache.mk [["a"%string]] 4) in
  let r' := CSVRange.mk 0 6 (RowsCache.mk [["a"%string]; ["b"%string]] 6) in
  CSVRange.merge f r = (Ok tt, r') /\
  CSVRange.getRow r' (Estimator.rangeNumRows r + 0) = CSVRange.getRow f 0 /\
  RowsCache.byteCount (CSVRange.rowsCache r') =
    RowsCache.byteCount (CSVRange.rowsCache r) + RowsCache.byteCount (CSVRange.rowsCache f).
Proof.
  cbv zeta.
  assert (H : CSVRange.merge (CSVRange.mk 4 2 (RowsCache.mk [["b"%string]] 2))
    (CSVRange.mk 0 4 (RowsCache.mk [["a"%string]] 4)) =
    (Ok tt, CSVRange.mk 0 6 (RowsCache.mk [["a"%string]; ["b"%string]] 6)))
    by (vm_compute; reflexivity).
  destruct (range_merge_behaviour _ _ _ _ H) as [_ Hok].
  destruct (Hok eq_refl) as (_ & _ & _ & _ & Hr & _ & Hb).
  split; [exact H|]. split; [apply Hr; lia|exact Hb].
Defined.

(** An instance of [cached_bytes_bound]. *)
Lemma cached_bytes_bound_witness :
  let c := snd (CSVCache.store (Row.mk 5 2 (Some ["b"%string]))
     (CSVCache.mk 12 ["a"%string] 0 (CSVRange.mk 0 0 RowsCache.empty) [] ","%string LF)) in
  reachable c /\
  0 <= Estimator.computeNumCachedBytes c <= byteLength c - headerByteCount c.
Proof. cbv zeta. split; [reach|]. apply cached_bytes_bound. reach. Defined.

End Extras.
